(** * MARigKit: NH_BoneCleaner and NH_SyncTransform

    A shallow embedding of the two add-ons of the repository and the
    properties their specification states about them.

    The add-ons operate on the scene of the host application.  The parts of
    the scene the operators read or write are modelled as records that are
    passed explicitly: every operator is a function from a context to a
    status, an optional report and the context it leaves behind.

    Conventions:
    - collections that are looked up by name only ([data.bones],
      [pose.bones], the local [mod_map] dict) are finite maps keyed by the
      name; collections that are indexed or iterated in order
      ([vertex_groups], [vertices], [modifiers], [constraints]) are lists;
    - Python sets of names are [gset string];
    - object references ([mod.object], [scene.nh_sync_source]) are
      [obj_ref]s into a total store, [None] standing for an unset pointer;
    - vertex weights are rationals: the operators only compare a weight
      with zero;
    - operations implemented by the host rather than by the add-on
      ([bpy.ops.object.mode_set], [bpy.ops.armature.delete],
      [vertex_groups.remove], the defaults of a new constraint, what is
      stored when the name or the subtarget of a constraint is assigned)
      are parameters of the model, with the laws the host gives them; a
      mode switch that the host refuses raises an error, which ends the run
      of the operator without a result;
    - the while loop that climbs the parent links of a bone is counted down
      from a fuel argument, [None] standing for a loop that is still
      running; every other loop is a pass over a list, a set or a map. *)

From Stdlib Require Import QArith Lqa.
From stdpp Require Import base option list gmap strings sorting functions pretty.

Close Scope Q_scope.

Definition obj_ref := nat.

Inductive Status := FINISHED | CANCELLED.

(** A report is the pair of the level and the message given to
    [self.report]. *)
Definition Report := (string * string)%type.

#[global] Instance Status_eq_dec : EqDecision Status.
Proof. solve_decision. Defined.

(** [w > 0.0] *)
Definition positive (w : Q) : bool := (0 <? Qnum w)%Z.

(* ================================================================== *)
(** * NH_BoneCleaner *)
(* ================================================================== *)

Module BoneCleaner.

(** ** Data model *)

(** An entry of [v.groups]: the index of a vertex group and the weight the
    vertex has in it. *)
Record VertexGroupElement := { group : nat; weight : Q }.

Record MeshVertex := { groups : list VertexGroupElement }.

Record Modifier := {
  mod_name : string;
  mod_type : string;
  mod_object : option obj_ref
}.

(** A selected object.  [vertex_groups] lists the names of the object's
    vertex groups, position [i] holding the group of index [i];
    [vertices] is [obj.data.vertices]. *)
Record Object := {
  obj_name : string;
  obj_type : string;
  vertex_groups : list string;
  vertices : list MeshVertex;
  modifiers : list Modifier
}.

Record EditBone := { eb_name : string; select : bool }.

(** [bones] is [arm.data.bones]: it maps the name of a bone to the name of
    its parent bone, [None] for a bone without parent. *)
Record Armature := {
  bones : gmap string (option string);
  edit_bones : list EditBone
}.

(** [modifier_name] is the identifier read from the [EnumProperty] of that
    name. *)
Record BoneCleanerProperties := {
  modifier_name : string;
  preserve_hierarchy : bool
}.

Record Context := {
  selected_objects : list Object;
  armature_data : obj_ref → Armature;
  mode : string;
  active : option obj_ref;
  bone_cleaner_props : BoneCleanerProperties
}.

Definition Result := (Status * option Report * Context)%type.

(** How a run of an operator ends: with the result [execute] returns, or
    with the [RuntimeError] of a host operator that refuses the call; the
    context is the one the error leaves behind. *)
Inductive Outcome :=
| Returned (result : Result)
| Raised (ctx : Context).

(** ** Helpers *)

(** [obj.vertex_groups.find(group_name)]; [None] stands for [-1]. *)
Fixpoint vertex_groups_find (vgs : list string) (group_name : string) : option nat :=
  match vgs with
  | [] => None
  | n :: rest =>
      if String.eqb n group_name then Some 0
      else S <$> vertex_groups_find rest group_name
  end.

Definition get_vertex_group_weights (obj : Object) (group_name : string) : list Q :=
  match vertex_groups_find (vertex_groups obj) group_name with
  | None => []
  | Some idx =>
      v ← vertices obj;
      g ← groups v;
      if decide (group g = idx) then [weight g] else []
  end.

(** [mod_name_counts[k] += 1] on a [Counter], which keeps its keys in the
    order of their first insertion. *)
Fixpoint counter_incr (k : string) (cnt : list (string * nat)) : list (string * nat) :=
  match cnt with
  | [] => [(k, 1)]
  | (k', c) :: rest =>
      if String.eqb k' k then (k', S c) :: rest
      else (k', c) :: counter_incr k rest
  end.

(** The two nested loops of [find_common_armature_modifier]. *)
Definition scan_modifier (st : list (string * nat) * gmap string obj_ref) (m : Modifier)
  : list (string * nat) * gmap string obj_ref :=
  if String.eqb (mod_type m) "ARMATURE" then
    match mod_object m with
    | Some o => (counter_incr (mod_name m) st.1, <[mod_name m := o]> st.2)
    | None => st
    end
  else st.

Definition scan_mesh (st : list (string * nat) * gmap string obj_ref) (mesh : Object)
  : list (string * nat) * gmap string obj_ref :=
  foldl scan_modifier st (modifiers mesh).

Definition find_common_armature_modifier (meshes : list Object)
  : list (string * string * string) * gmap string obj_ref :=
  let '(mod_name_counts, mod_map) := foldl scan_mesh ([], ∅) meshes in
  let common :=
    (filter (λ nc : string * nat, nc.2 = length meshes) mod_name_counts).*1 in
  ((λ name, (name, name, "")) <$> common, mod_map).

(** [mesh.modifiers.get(mod_name)] *)
Definition modifiers_get (mods : list Modifier) (name : string) : option Modifier :=
  List.find (λ m, String.eqb (mod_name m) name) mods.

(** The guard of the usage loop: the mesh is skipped unless
    [mod and mod.type == 'ARMATURE' and mod.object == arm]. *)
Definition carries (mod_name : string) (arm : obj_ref) (mesh : Object) : bool :=
  match modifiers_get (modifiers mesh) mod_name with
  | None => false
  | Some m => String.eqb (mod_type m) "ARMATURE" && bool_decide (mod_object m = Some arm)
  end.

(** The inner loop over [mesh.vertex_groups]. *)
Definition mark_group (mesh : Object) (used_bones : gset string) (vg_name : string)
  : gset string :=
  if existsb positive (get_vertex_group_weights mesh vg_name)
  then {[vg_name]} ∪ used_bones
  else used_bones.

Definition mark_mesh (mod_name : string) (arm : obj_ref)
    (used_bones : gset string) (mesh : Object) : gset string :=
  if carries mod_name arm mesh
  then foldl (mark_group mesh) used_bones (vertex_groups mesh)
  else used_bones.

(** Lines 70-78 of [execute]: the usage-detection step. *)
Definition detect_used_bones (mod_name : string) (arm : obj_ref)
    (meshes : list Object) : gset string :=
  foldl (mark_mesh mod_name arm) ∅ meshes.

(** *** Hierarchy expansion *)

(** [arm.data.bones.get(bone_name)]: a reference to the bone of that name,
    or [None]. *)
Definition bones_get (bs : gmap string (option string)) (bone_name : string)
  : option string :=
  match bs !! bone_name with
  | Some _ => Some bone_name
  | None => None
  end.

(** [bone.parent] of the bone referred to by [b]. *)
Definition bone_parent (bs : gmap string (option string)) (b : string)
  : option string :=
  match bs !! b with
  | Some p => p
  | None => None
  end.

(** The [while bone:] loop.  The loop has no bound of its own, so the model
    counts iterations down from [fuel]; [None] means that the loop was still
    running when the fuel ran out. *)
Fixpoint walk (fuel : nat) (bs : gmap string (option string))
    (bone : option string) (expanded_set : gset string) : option (gset string) :=
  match bone with
  | None => Some expanded_set
  | Some b =>
      match fuel with
      | O => None
      | S fuel' => walk fuel' bs (bone_parent bs b) ({[b]} ∪ expanded_set)
      end
  end.

(** [for bone_name in used_bones: ...] over the elements of the set. *)
Fixpoint expand_loop (fuel : nat) (bs : gmap string (option string))
    (names : list string) (expanded_set : gset string) : option (gset string) :=
  match names with
  | [] => Some expanded_set
  | bone_name :: rest =>
      match walk fuel bs (bones_get bs bone_name) expanded_set with
      | Some expanded_set' => expand_loop fuel bs rest expanded_set'
      | None => None
      end
  end.

(** Lines 80-87 of [execute]. *)
Definition expand_hierarchy (fuel : nat) (bs : gmap string (option string))
    (used_bones : gset string) : option (gset string) :=
  expand_loop fuel bs (elements used_bones) ∅.

(** *** Operators *)

(** The operations the add-on delegates to the host. *)
Class HostOps := {
  (** [bpy.ops.object.mode_set(mode=m)]; [None] when the operator refuses
      the call (its poll fails) and raises [RuntimeError] *)
  mode_set : string → Context → option Context;
  (** [bpy.ops.armature.delete()] *)
  armature_delete : Context → Context;
  (** [mesh.vertex_groups.remove(mesh.vertex_groups[name])] *)
  vertex_groups_remove : Object → string → Object;
  (** the poll of [mode_set] asks for an active object *)
  mode_set_needs_active : ∀ m ctx, active ctx = None → mode_set m ctx = None
}.

Definition is_mesh (obj : Object) : bool := String.eqb (obj_type obj) "MESH".

(** [[obj for obj in context.selected_objects if obj.type == 'MESH']] *)
Definition selected_meshes (ctx : Context) : list Object :=
  List.filter is_mesh (selected_objects ctx).

Definition set_active (arm : obj_ref) (ctx : Context) : Context :=
  {| selected_objects := selected_objects ctx;
     armature_data := armature_data ctx;
     mode := mode ctx;
     active := Some arm;
     bone_cleaner_props := bone_cleaner_props ctx |}.

(** [bone.select = bone.name not in used_bones] *)
Definition set_select (used_bones : gset string) (bone : EditBone) : EditBone :=
  {| eb_name := eb_name bone;
     select := bool_decide (eb_name bone ∉ used_bones) |}.

(** [for bone in arm.data.edit_bones: ...] *)
Definition select_unused (arm : obj_ref) (used_bones : gset string)
    (ctx : Context) : Context :=
  let a := armature_data ctx arm in
  {| selected_objects := selected_objects ctx;
     armature_data :=
       <[arm := {| bones := bones a;
                   edit_bones := set_select used_bones <$> edit_bones a |}]>
         (armature_data ctx);
     mode := mode ctx;
     active := active ctx;
     bone_cleaner_props := bone_cleaner_props ctx |}.

Section Operators.
Context `{HostOps}.

(** Lines 89-96 of [execute]: the two mode switches around the activation
    of the armature, the selection loop and the return.  A mode switch that
    the host refuses ends the run with its error. *)
Definition switch_and_select (arm : obj_ref) (used_bones : gset string)
    (ctx : Context) : Outcome :=
  match mode_set "OBJECT" ctx with
  | None => Raised ctx
  | Some ctx =>
      let ctx := set_active arm ctx in
      match mode_set "EDIT" ctx with
      | None => Raised ctx
      | Some ctx => Returned (FINISHED, None, select_unused arm used_bones ctx)
      end
  end.

(** [BONECLEANER_OT_SelectUnusedBones.execute].  The result is [None] when
    an ancestor walk does not end within [fuel] iterations. *)
Definition SelectUnusedBones_execute (fuel : nat) (ctx : Context) : option Outcome :=
  let props := bone_cleaner_props ctx in
  let mod_name := modifier_name props in
  let meshes := selected_meshes ctx in
  match meshes with
  | [] =>
      Some (Returned
              (CANCELLED, Some ("ERROR", "At least one mesh must be selected."), ctx))
  | _ :: _ =>
      let '(common_mods, mod_map) := find_common_armature_modifier meshes in
      match mod_map !! mod_name with
      | None =>
          Some (Returned
                  (CANCELLED,
                   Some ("ERROR", "Modifier not found or inconsistent across meshes."),
                   ctx))
      | Some arm =>
          let used_bones := detect_used_bones mod_name arm meshes in
          let expanded :=
            if preserve_hierarchy props
            then expand_hierarchy fuel (bones (armature_data ctx arm)) used_bones
            else Some used_bones in
          match expanded with
          | None => None
          | Some used_bones => Some (switch_and_select arm used_bones ctx)
          end
      end
  end.

(** [BONECLEANER_OT_DeleteSelectedBones.execute] *)
Definition DeleteSelectedBones_execute (ctx : Context) : Result :=
  if negb (String.eqb (mode ctx) "EDIT_ARMATURE")
  then (CANCELLED, Some ("ERROR", "Must be in Edit Mode for Armature."), ctx)
  else (FINISHED, None, armature_delete ctx).

(** The set [used] of [BONECLEANER_OT_DeleteUnusedVertexGroups.execute]:
    the indices of the groups in which some vertex has a positive weight. *)
Definition used_group_indices (mesh : Object) : gset nat :=
  foldl (λ used v,
           foldl (λ used g,
                    if positive (weight g) then {[group g]} ∪ used else used)
                 used (groups v))
        ∅ (vertices mesh).

(** [[vg.name for i, vg in enumerate(mesh.vertex_groups) if i not in used]] *)
Definition to_remove (mesh : Object) : list string :=
  let used := used_group_indices mesh in
  (filter (λ ivg : nat * string, ivg.1 ∉ used)
          (imap (λ i vg, (i, vg)) (vertex_groups mesh))).*2.

Definition remove_unused_groups (mesh : Object) : Object :=
  foldl vertex_groups_remove mesh (to_remove mesh).

(** [BONECLEANER_OT_DeleteUnusedVertexGroups.execute] *)
Definition DeleteUnusedVertexGroups_execute (ctx : Context) : Result :=
  let meshes := selected_meshes ctx in
  match meshes with
  | [] => (CANCELLED, Some ("ERROR", "At least one mesh must be selected."), ctx)
  | _ :: _ =>
      let total_removed := sum_list (length ∘ to_remove <$> meshes) in
      (FINISHED,
       Some ("INFO", "Removed " +:+ pretty total_removed +:+ " vertex groups."),
       {| selected_objects :=
            (λ obj, if is_mesh obj then remove_unused_groups obj else obj)
              <$> selected_objects ctx;
          armature_data := armature_data ctx;
          mode := mode ctx;
          active := active ctx;
          bone_cleaner_props := bone_cleaner_props ctx |})
  end.

(** The context in which the operator writes the selection: after the
    switch to Object Mode, the activation of the armature and the switch to
    Edit Mode; [None] when the host refuses one of the two switches. *)
Definition entered_edit_mode (arm : obj_ref) (ctx : Context) : option Context :=
  ctx ← mode_set "OBJECT" ctx;
  mode_set "EDIT" (set_active arm ctx).

End Operators.

(** ** Vocabulary of the properties *)

(** Some vertex of [mesh] has an entry for the group of index [idx] with a
    strictly positive weight. *)
Definition has_positive_entry (mesh : Object) (idx : nat) : Prop :=
  ∃ v g, v ∈ vertices mesh ∧ g ∈ groups v ∧ group g = idx ∧ (0 < weight g)%Q.

(** [p] is the parent of the bone [b]. *)
Definition parent_rel (bs : gmap string (option string)) (b p : string) : Prop :=
  bone_parent bs b = Some p.

(** [a] is an ancestor (a transitive parent) of [b]. *)
Definition ancestor (bs : gmap string (option string)) (b a : string) : Prop :=
  tc (parent_rel bs) b a.

(** No bone is its own ancestor. *)
Definition acyclic (bs : gmap string (option string)) : Prop :=
  ∀ b, ¬ ancestor bs b b.

(** [n] is a used name that names a bone of the armature, or an ancestor of
    such a bone. *)
Definition in_hierarchy (bs : gmap string (option string))
    (used_bones : gset string) (n : string) : Prop :=
  ∃ u, u ∈ used_bones ∧ is_Some (bs !! u) ∧ (n = u ∨ ancestor bs u n).

(** The property as C2 states it: the expanded set consists of the used names
    and of the ancestors of the used bones. *)
Definition keeps_used_and_adds_ancestors (bs : gmap string (option string))
    (used_bones E : gset string) : Prop :=
  ∀ n, n ∈ E ↔ n ∈ used_bones ∨ ∃ u, u ∈ used_bones ∧ ancestor bs u n.

(** The weight entries of the group of index [idx], over all vertices. *)
Definition group_entries (mesh : Object) (idx : nat) : list Q :=
  v ← vertices mesh;
  g ← groups v;
  if decide (group g = idx) then [weight g] else [].

Definition Qsum (ws : list Q) : Q := foldr Qplus 0%Q ws.

(** The detection in the words of the specification: a group is used when
    the sum of its weight entries is not zero. *)
Definition spec_used_by_weight_sum (mesh : Object) (idx : nat) : Prop :=
  ¬ (Qsum (group_entries mesh idx) == 0)%Q.

Definition nonnegative_weights (mesh : Object) : Prop :=
  ∀ v g, v ∈ vertices mesh → g ∈ groups v → (0 <= weight g)%Q.

(** The armature the operator resolves the chosen modifier to. *)
Definition chosen_armature (ctx : Context) : option obj_ref :=
  (find_common_armature_modifier (selected_meshes ctx)).2
    !! modifier_name (bone_cleaner_props ctx).

(** The used set the operator works with: the detected set, expanded when
    the preserve-hierarchy option is on. *)
Definition final_used_bones (fuel : nat) (ctx : Context) (arm : obj_ref)
  : option (gset string) :=
  let used_bones :=
    detect_used_bones (modifier_name (bone_cleaner_props ctx)) arm
                      (selected_meshes ctx) in
  if preserve_hierarchy (bone_cleaner_props ctx)
  then expand_hierarchy fuel (bones (armature_data ctx arm)) used_bones
  else Some used_bones.

(** [after] has the bones of [before], each selected exactly when its name
    is not in [used_bones]. *)
Definition selects_exactly_unused (used_bones : gset string)
    (before after : list EditBone) : Prop :=
  Forall2 (λ b b', eb_name b' = eb_name b ∧
                   (select b' = true ↔ eb_name b ∉ used_bones))
          before after.

(** [m] is an armature modifier named [k] with its object set. *)
Definition armature_modifier_named (k : string) (m : Modifier) : Prop :=
  mod_type m = "ARMATURE" ∧
  is_Some (mod_object m) ∧
  mod_name m = k.

(** Some mesh of the list has an armature modifier named [k]. *)
Definition present_on_some (k : string) (meshes : list Object) : Prop :=
  ∃ mesh m, mesh ∈ meshes ∧ m ∈ modifiers mesh ∧
            armature_modifier_named k m.

(** Every mesh of the list has an armature modifier named [k]. *)
Definition present_on_all (k : string) (meshes : list Object) : Prop :=
  ∀ mesh, mesh ∈ meshes →
    ∃ m, m ∈ modifiers mesh ∧ armature_modifier_named k m.

(** The items of the [modifier_name] property for the current selection:
    the property is declared as an [EnumProperty] whose items are the first
    component of [find_common_armature_modifier] on the selected meshes. *)
Definition modifier_name_items (ctx : Context) : list (string * string * string) :=
  (find_common_armature_modifier (selected_meshes ctx)).1.

(** What reading an enum property can give: the identifier of one of its
    items, or the empty string when the stored choice matches none. *)
Definition modifier_name_admissible (ctx : Context) : Prop :=
  modifier_name (bone_cleaner_props ctx) = "" ∨
  modifier_name (bone_cleaner_props ctx) ∈ (modifier_name_items ctx).*1.*1.

(** The names of the modifiers of an object are distinct and not empty. *)
Definition modifier_names_well_formed (mesh : Object) : Prop :=
  NoDup (mod_name <$> modifiers mesh) ∧ "" ∉ mod_name <$> modifiers mesh.

(** The validation of Select Unused Bones fails: no mesh is selected, or
    the chosen modifier is not an armature modifier of every selected
    mesh. *)
Definition select_validation_fails (ctx : Context) : Prop :=
  selected_meshes ctx = [] ∨
  ¬ present_on_all (modifier_name (bone_cleaner_props ctx)) (selected_meshes ctx).

(** The count a [Counter] holds for a key, zero for a missing key. *)
Fixpoint counter_get (k : string) (cnt : list (string * nat)) : nat :=
  match cnt with
  | [] => 0
  | (k', c) :: rest => if String.eqb k' k then c else counter_get k rest
  end.

(** The test of [find_common_armature_modifier] on a modifier, for the
    name [k]. *)
Definition counts_for (k : string) (m : Modifier) : bool :=
  String.eqb (mod_type m) "ARMATURE" &&
  bool_decide (is_Some (mod_object m)) &&
  String.eqb (mod_name m) k.

Definition occurrences (k : string) (mods : list Modifier) : nat :=
  length (List.filter (counts_for k) mods).

(** The walk that starts at the bone [b] runs into a cycle of parent
    links. *)
Definition reaches_cycle (bs : gmap string (option string)) (b : string) : Prop :=
  ∃ c, rtc (parent_rel bs) b c ∧ ancestor bs c c.

(** The modifiers of the meshes, in the order in which
    [find_common_armature_modifier] visits them. *)
Definition all_modifiers (meshes : list Object) : list Modifier :=
  meshes ≫= modifiers.

(** What the host's removal of a vertex group does to the list of groups
    of an object whose group names are distinct: the group of that name is
    gone, the others stay in their order. *)
Definition removes_named_group (host : HostOps) : Prop :=
  ∀ mesh n, NoDup (vertex_groups mesh) →
    vertex_groups (vertex_groups_remove mesh n) =
    filter (λ m, m ≠ n) (vertex_groups mesh).

(** The mesh is bound to the armature [arm] by its modifier named [k]: the
    modifier is an armature modifier whose object is [arm]. *)
Definition bound_by (k : string) (arm : obj_ref) (mesh : Object) : Prop :=
  ∃ m, m ∈ modifiers mesh ∧ mod_name m = k ∧
       mod_type m = "ARMATURE" ∧ mod_object m = Some arm.

(** The mesh has no modifier named [k], or that modifier is not an armature
    modifier, or its object is not [arm]. *)
Definition unbound (k : string) (arm : obj_ref) (mesh : Object) : Prop :=
  (∀ m, m ∈ modifiers mesh → mod_name m ≠ k) ∨
  (∃ m, m ∈ modifiers mesh ∧ mod_name m = k ∧ mod_type m ≠ "ARMATURE") ∨
  (∃ m, m ∈ modifiers mesh ∧ mod_name m = k ∧ mod_object m ≠ Some arm).

(** ** An example scene *)

(** A host for the examples.  A mode switch is refused when no object is
    active; Edit Mode on an armature is the context mode [EDIT_ARMATURE];
    deleting removes the selected edit bones of the active armature;
    removing a vertex group drops its entries from the vertices and shifts
    the indices of the groups after it. *)
Definition example_mode_set (m : string) (ctx : Context) : option Context :=
  match active ctx with
  | None => None
  | Some _ =>
      Some {| selected_objects := selected_objects ctx;
              armature_data := armature_data ctx;
              mode := if String.eqb m "EDIT" then "EDIT_ARMATURE" else m;
              active := active ctx;
              bone_cleaner_props := bone_cleaner_props ctx |}
  end.


Definition example_armature_delete (ctx : Context) : Context :=
  match active ctx with
  | None => ctx
  | Some arm =>
      let a := armature_data ctx arm in
      {| selected_objects := selected_objects ctx;
         armature_data :=
           <[arm := {| bones := bones a;
                       edit_bones := List.filter (λ b, negb (select b)) (edit_bones a) |}]>
             (armature_data ctx);
         mode := mode ctx;
         active := active ctx;
         bone_cleaner_props := bone_cleaner_props ctx |}
  end.

Definition drop_group (k : nat) (v : MeshVertex) : MeshVertex :=
  {| groups :=
       omap (λ g, if decide (group g = k) then None
                  else Some {| group := if decide (k < group g)
                                        then pred (group g) else group g;
                               weight := weight g |})
            (groups v) |}.

Definition example_vertex_groups_remove (mesh : Object) (vg_name : string) : Object :=
  match vertex_groups_find (vertex_groups mesh) vg_name with
  | None => mesh
  | Some k =>
      {| obj_name := obj_name mesh;
         obj_type := obj_type mesh;
         vertex_groups := delete k (vertex_groups mesh);
         vertices := drop_group k <$> vertices mesh;
         modifiers := modifiers mesh |}
  end.

Definition example_host : HostOps.
Proof.
  refine {| mode_set := example_mode_set;
            armature_delete := example_armature_delete;
            vertex_groups_remove := example_vertex_groups_remove |}.
  intros m ctx Hact. unfold example_mode_set. by rewrite Hact.
Defined.

(** A rig of four bones: [root] with the children [spine] and [tail], and
    [head] below [spine]. *)
Definition rig_bones : gmap string (option string) :=
  {[ "root" := None; "spine" := Some "root";
     "head" := Some "spine"; "tail" := Some "root" ]}.

Definition rig : Armature :=
  {| bones := rig_bones;
     edit_bones := [ {| eb_name := "root"; select := false |};
                     {| eb_name := "spine"; select := true |};
                     {| eb_name := "head"; select := false |};
                     {| eb_name := "tail"; select := false |} ] |}.

(** A mesh bound to the rig (object 1) with three vertex groups: [head]
    carries weight, [tail] has a zero entry only, and [cloth] carries weight
    but names no bone. *)
Definition body : Object :=
  {| obj_name := "Body";
     obj_type := "MESH";
     vertex_groups := ["head"; "tail"; "cloth"];
     vertices :=
       [ {| groups := [ {| group := 0; weight := 1 # 2 |};
                        {| group := 1; weight := 0 |} ] |};
         {| groups := [ {| group := 2; weight := 1 |} ] |} ];
     modifiers :=
       [ {| mod_name := "Armature"; mod_type := "ARMATURE";
            mod_object := Some 1 |} ] |}.

(** A mesh without any modifier. *)
Definition hair : Object :=
  {| obj_name := "Hair";
     obj_type := "MESH";
     vertex_groups := ["strand"];
     vertices := [ {| groups := [ {| group := 0; weight := 1 |} ] |} ];
     modifiers := [] |}.

(** A context in Object Mode with the rig active. *)
Definition example_context (selection : list Object) : Context :=
  {| selected_objects := selection;
     armature_data := λ _, rig;
     mode := "OBJECT";
     active := Some 1;
     bone_cleaner_props :=
       {| modifier_name := "Armature"; preserve_hierarchy := true |} |}.

(** The context after the rig has been taken into Edit Mode. *)
Definition example_edit_context (selection : list Object) : Context :=
  {| selected_objects := selection;
     armature_data := λ _, rig;
     mode := "EDIT_ARMATURE";
     active := Some 1;
     bone_cleaner_props :=
       {| modifier_name := "Armature"; preserve_hierarchy := true |} |}.

(** The same context with no active object. *)
Definition unfocused_context (selection : list Object) : Context :=
  {| selected_objects := selection;
     armature_data := λ _, rig;
     mode := "OBJECT";
     active := None;
     bone_cleaner_props :=
       {| modifier_name := "Armature"; preserve_hierarchy := true |} |}.

(** An armature whose two bones are each other's parent, and a mesh bound
    to it whose group [a] carries weight. *)
Definition looped_bones : gmap string (option string) :=
  {[ "a" := Some "b"; "b" := Some "a" ]}.

Definition limb : Object :=
  {| obj_name := "Limb";
     obj_type := "MESH";
     vertex_groups := ["a"];
     vertices := [ {| groups := [ {| group := 0; weight := 1 |} ] |} ];
     modifiers :=
       [ {| mod_name := "Armature"; mod_type := "ARMATURE";
            mod_object := Some 1 |} ] |}.

(** A mesh bound to another armature (object 7), with a weighted group
    named after a bone of the rig. *)
Definition cape : Object :=
  {| obj_name := "Cape";
     obj_type := "MESH";
     vertex_groups := ["tail"];
     vertices := [ {| groups := [ {| group := 0; weight := 1 |} ] |} ];
     modifiers :=
       [ {| mod_name := "Armature"; mod_type := "ARMATURE";
            mod_object := Some 7 |} ] |}.

Definition looped_context : Context :=
  {| selected_objects := [limb];
     armature_data := λ _, {| bones := looped_bones; edit_bones := [] |};
     mode := "OBJECT";
     active := None;
     bone_cleaner_props :=
       {| modifier_name := "Armature"; preserve_hierarchy := true |} |}.

End BoneCleaner.

(* ================================================================== *)
(** * NH_SyncTransform *)
(* ================================================================== *)

Module SyncTransform.

(** ** Constants *)

Inductive PrefixKey := ROT | LOC | SCL.

Definition PREFIXES (k : PrefixKey) : string :=
  match k with
  | ROT => "NH_SYNC_ROT_"
  | LOC => "NH_SYNC_LOC_"
  | SCL => "NH_SYNC_SCL_"
  end.

Definition ALL_PREFIXES : list string := [PREFIXES ROT; PREFIXES LOC; PREFIXES SCL].

(** ** Data model *)

(** A constraint of a pose bone.  [target] is the armature object the
    constraint points at. *)
Record Constraint := {
  ctype : string;
  name : string;
  target : option obj_ref;
  subtarget : string;
  target_space : string;
  owner_space : string;
  use_x : bool;
  use_y : bool;
  use_z : bool;
  mix_mode : string
}.

#[global] Instance Constraint_eq_dec : EqDecision Constraint.
Proof. solve_decision. Defined.

(** [pose_bones a] is [a.pose.bones] of the armature object [a]: the
    constraint stack of every pose bone, by bone name. *)
Record Scene := {
  nh_sync_source : option obj_ref;
  nh_sync_target : option obj_ref;
  pose_bones : obj_ref → gmap string (list Constraint)
}.

Definition Result := (Status * option Report * Scene)%type.

(** What the host does with a constraint.

    - [new_constraint_defaults]: the values it gives to the fields of a
      constraint it has just created, by constraint type.
    - [store_name]: what it stores when [con.name] is assigned.  A name has
      room for 63 bytes; a longer one is cut, at a character boundary, so
      that between 60 and 63 bytes remain.
    - [store_subtarget owner bone tgt sub]: what it stores when
      [con.subtarget = sub] is assigned on a constraint of the pose bone
      [bone] of the armature [owner] whose target is [tgt].  A pose bone
      cannot be constrained to itself: the host clears a subtarget that names
      the constrained bone of the constrained armature. *)
Class HostOps := {
  new_constraint_defaults : string → Constraint;
  store_name : string → string;
  store_subtarget : obj_ref → string → option obj_ref → string → string;
  store_name_short :
    ∀ s, String.length s ≤ 63 → store_name s = s;
  store_name_cut :
    ∀ s, ∃ k, 60 ≤ k ≤ 63 ∧ store_name s = String.substring 0 k s;
  store_subtarget_self :
    ∀ owner bone, store_subtarget owner bone (Some owner) bone = "";
  store_subtarget_other :
    ∀ owner bone tgt sub,
      tgt ≠ Some owner ∨ sub ≠ bone → store_subtarget owner bone tgt sub = sub
}.

(** ** Helpers *)

(** [s.startswith(prefixes)] with a tuple of prefixes. *)
Definition startswith (s : string) (prefixes : list string) : bool :=
  existsb (λ p, String.prefix p s) prefixes.

Definition string_le (a b : string) : Prop := String.leb a b = true.

#[global] Instance string_le_dec : RelDecision string_le.
Proof. intros a b. unfold string_le. apply _. Defined.

(** [sorted(...)] on names. *)
Definition sorted (names : list string) : list string := merge_sort string_le names.

Definition get_common_bone_names (armature1 armature2 : gmap string (list Constraint))
  : list string :=
  sorted (elements (dom armature1 ∩ dom armature2)).

Definition is_sync (c : Constraint) : bool := startswith (name c) ALL_PREFIXES.

Definition has_sync_constraint (constraints : list Constraint) : bool :=
  existsb is_sync constraints.

(** [bone.constraints.remove(c)] *)
Fixpoint constraints_remove (c : Constraint) (constraints : list Constraint)
  : list Constraint :=
  match constraints with
  | [] => []
  | c' :: rest => if decide (c' = c) then rest else c' :: constraints_remove c rest
  end.

(** The loop runs over the copy [list(bone.constraints)] and removes from
    the bone's own stack. *)
Definition _remove_existing_constraints (constraints : list Constraint)
  : list Constraint :=
  foldl (λ cur c, if is_sync c then constraints_remove c cur else cur)
        constraints constraints.

Definition set_use_xyz (c : Constraint) : Constraint :=
  {| ctype := ctype c; name := name c; target := target c;
     subtarget := subtarget c; target_space := target_space c;
     owner_space := owner_space c;
     use_x := true; use_y := true; use_z := true;
     mix_mode := mix_mode c |}.

Definition set_mix_mode (m : string) (c : Constraint) : Constraint :=
  {| ctype := ctype c; name := name c; target := target c;
     subtarget := subtarget c; target_space := target_space c;
     owner_space := owner_space c;
     use_x := use_x c; use_y := use_y c; use_z := use_z c;
     mix_mode := m |}.

Section Operators.
Context `{HostOps}.

(** [bone.constraints.new(type=ctype)]: the new constraint goes to the end
    of the stack; the result is the stack and the position of the new
    constraint in it. *)
Definition constraints_new (constraints : list Constraint) (ty : string)
  : list Constraint * nat :=
  let d := new_constraint_defaults ty in
  (constraints ++
     [ {| ctype := ty; name := name d; target := target d;
          subtarget := subtarget d; target_space := target_space d;
          owner_space := owner_space d;
          use_x := use_x d; use_y := use_y d; use_z := use_z d;
          mix_mode := mix_mode d |} ],
   length constraints).

(** [_new_constraint] returns the constraint it created; here, its position
    in the stack of the bone.  The bone is given by the armature [owner] it
    belongs to, its name [bone] and its stack.  The assignments to
    [con.name] and to [con.subtarget] store what the host makes of the
    value; the target is assigned before the subtarget. *)
Definition _new_constraint (owner : obj_ref) (bone : string)
    (constraints : list Constraint) (ty nm : string)
    (source : obj_ref) (sub : string) : list Constraint * nat :=
  let '(constraints, con) := constraints_new constraints ty in
  (alter (λ c, {| ctype := ctype c; name := store_name nm;
                  target := Some source;
                  subtarget := store_subtarget owner bone (Some source) sub;
                  target_space := "WORLD";
                  owner_space := "WORLD";
                  use_x := use_x c; use_y := use_y c; use_z := use_z c;
                  mix_mode := mix_mode c |}) con constraints,
   con).

(** The body of the loop of [apply_constraints], on the stack of
    [tgt_bone], the pose bone [bone_name] of the armature [target]. *)
Definition sync_bone (source target : obj_ref) (bone_name : string)
    (constraints : list Constraint) : list Constraint :=
  let constraints := _remove_existing_constraints constraints in
  let '(constraints, rot) :=
    _new_constraint target bone_name constraints
                    "COPY_ROTATION" (PREFIXES ROT +:+ bone_name)
                    source bone_name in
  let constraints := alter set_use_xyz rot constraints in
  let constraints := alter (set_mix_mode "REPLACE") rot constraints in
  let '(constraints, loc) :=
    _new_constraint target bone_name constraints
                    "COPY_LOCATION" (PREFIXES LOC +:+ bone_name)
                    source bone_name in
  let constraints := alter set_use_xyz loc constraints in
  let '(constraints, scl) :=
    _new_constraint target bone_name constraints
                    "COPY_SCALE" (PREFIXES SCL +:+ bone_name)
                    source bone_name in
  alter set_use_xyz scl constraints.

(** [apply_constraints], on [target.pose.bones]. *)
Definition apply_constraints (source target : obj_ref)
    (target_bones : gmap string (list Constraint)) (common_bones : list string)
  : gmap string (list Constraint) :=
  foldl (λ bones bone_name,
           match bones !! bone_name with
           | None => bones
           | Some constraints =>
               <[bone_name := sync_bone source target bone_name constraints]> bones
           end)
        target_bones common_bones.

(** [remove_constraints], on [target.pose.bones]. *)
Definition remove_constraints (target_bones : gmap string (list Constraint))
  : gmap string (list Constraint) :=
  _remove_existing_constraints <$> target_bones.

Definition set_pose_bones (a : obj_ref) (bs : gmap string (list Constraint))
    (scn : Scene) : Scene :=
  {| nh_sync_source := nh_sync_source scn;
     nh_sync_target := nh_sync_target scn;
     pose_bones := <[a := bs]> (pose_bones scn) |}.

(** [NH_OT_ApplySyncTransform.execute] *)
Definition ApplySyncTransform_execute (scn : Scene) : Result :=
  match nh_sync_source scn, nh_sync_target scn with
  | Some source, Some target =>
      let common_bones :=
        get_common_bone_names (pose_bones scn source) (pose_bones scn target) in
      (FINISHED,
       Some ("INFO",
             "Applied constraints to " +:+ pretty (length common_bones) +:+ " bones"),
       set_pose_bones target
         (apply_constraints source target (pose_bones scn target) common_bones) scn)
  | _, _ =>
      (CANCELLED, Some ("WARNING", "Source and Target Armature must be set"), scn)
  end.

(** [NH_OT_RemoveSyncTransform.execute] *)
Definition RemoveSyncTransform_execute (scn : Scene) : Result :=
  match nh_sync_target scn with
  | Some target =>
      (FINISHED, Some ("INFO", "Removed sync constraints"),
       set_pose_bones target (remove_constraints (pose_bones scn target)) scn)
  | None => (CANCELLED, Some ("WARNING", "Target Armature must be set"), scn)
  end.

End Operators.

(** ** The panel *)

(** What a [draw] routine puts on a layout, in order.  A label without an
    icon has the icon [NONE]. *)
#[local] Unset Elimination Schemes.
Inductive Widget :=
  | Label (icon text : string)
  | PropField (property text : string)
  | OperatorButton (idname icon : string)
  | Box (items : list Widget)
  | Row (align : bool) (items : list Widget).
#[local] Set Elimination Schemes.

(** The row of a matching bone. *)
Definition bone_row (synced : bool) (bone_name : string) : Widget :=
  Row true [ Label (if synced then "CHECKMARK" else "BLANK1") "";
             Label "BONE_DATA" "";
             Label "NONE" bone_name ].

(** [synced = tgt_bone and has_sync_constraint(tgt_bone)] *)
Definition synced (target_bones : gmap string (list Constraint)) (bone_name : string)
  : bool :=
  match target_bones !! bone_name with
  | Some constraints => has_sync_constraint constraints
  | None => false
  end.

(** [NH_PT_SyncTransformPanel.draw] *)
Definition SyncTransformPanel_draw (scn : Scene) : list Widget :=
  [ Box [Label "NONE" "Source Armature"; PropField "nh_sync_source" ""];
    Box [Label "NONE" "Target Armature"; PropField "nh_sync_target" ""] ] ++
  match nh_sync_source scn, nh_sync_target scn with
  | Some source, Some target =>
      let common :=
        get_common_bone_names (pose_bones scn source) (pose_bones scn target) in
      [ Box (Label "NONE" ("Matching bones: " +:+ pretty (length common)) ::
             ((λ bone_name, bone_row (synced (pose_bones scn target) bone_name) bone_name)
                <$> common)) ]
  | _, _ => []
  end ++
  [ OperatorButton "nh.apply_sync_transform" "CON_TRACKTO";
    OperatorButton "nh.remove_sync_transform" "X" ].

(** ** Vocabulary of the properties *)

(** The name starts with one of the three sync prefixes. *)
Definition has_sync_prefix (nm : string) : Prop :=
  ∃ p rest, p ∈ ALL_PREFIXES ∧ nm = p +:+ rest.

Definition not_sync (c : Constraint) : bool := negb (is_sync c).

(** The constraint points at the bone [n] of [source], in world space. *)
Definition points_at (source : obj_ref) (n : string) (c : Constraint) : Prop :=
  target c = Some source ∧ subtarget c = n ∧
  target_space c = "WORLD" ∧ owner_space c = "WORLD".

(** The name of the constraint starts with the prefix, is an initial part
    of the prefix followed by the bone name [n], and is all of it when that
    fits into the 63 bytes of a name. *)
Definition sync_named (prefix n : string) (c : Constraint) : Prop :=
  (∃ rest, name c = prefix +:+ rest) ∧
  String.prefix (name c) (prefix +:+ n) = true ∧
  (String.length (prefix +:+ n) ≤ 63 → name c = prefix +:+ n).

(** The constraint of a pose bone [n] of the armature [tgt] points at the
    armature [src] in world space; its subtarget is [n] when the two
    armatures differ, and empty when they are the same. *)
Definition aims_at (src tgt : obj_ref) (n : string) (c : Constraint) : Prop :=
  target c = Some src ∧
  target_space c = "WORLD" ∧ owner_space c = "WORLD" ∧
  (src ≠ tgt → subtarget c = n) ∧
  (src = tgt → subtarget c = "").

(** What C3 states of the stack of a common bone [n]: exactly three sync
    constraints, of the three types, named with the three prefixes, each
    pointing at the bone [n] of the source in world space. *)
Definition three_sync_constraints_at (src : obj_ref) (n : string)
    (constraints : list Constraint) : Prop :=
  ∃ rot loc scl,
    List.filter is_sync constraints = [rot; loc; scl] ∧
    (ctype rot = "COPY_ROTATION" ∧ String.prefix "NH_SYNC_ROT_" (name rot) = true ∧
     points_at src n rot) ∧
    (ctype loc = "COPY_LOCATION" ∧ String.prefix "NH_SYNC_LOC_" (name loc) = true ∧
     points_at src n loc) ∧
    (ctype scl = "COPY_SCALE" ∧ String.prefix "NH_SYNC_SCL_" (name scl) = true ∧
     points_at src n scl).

(** The constraint [_new_constraint] leaves at the end of the stack, with
    the [use_x], [use_y] and [use_z] flags that [apply_constraints] sets. *)
Definition sync_constraint (ty nm : string) (source : obj_ref) (sub mix : string)
  : Constraint :=
  {| ctype := ty; name := nm; target := Some source; subtarget := sub;
     target_space := "WORLD"; owner_space := "WORLD";
     use_x := true; use_y := true; use_z := true; mix_mode := mix |}.

(** The three constraints the loop body of [apply_constraints] adds to the
    pose bone [n] of the armature [tgt]. *)
Definition new_sync_constraints `{HostOps} (src tgt : obj_ref) (n : string)
  : list Constraint :=
  [ sync_constraint "COPY_ROTATION" (store_name (PREFIXES ROT +:+ n)) src
      (store_subtarget tgt n (Some src) n) "REPLACE";
    sync_constraint "COPY_LOCATION" (store_name (PREFIXES LOC +:+ n)) src
      (store_subtarget tgt n (Some src) n)
      (mix_mode (new_constraint_defaults "COPY_LOCATION"));
    sync_constraint "COPY_SCALE" (store_name (PREFIXES SCL +:+ n)) src
      (store_subtarget tgt n (Some src) n)
      (mix_mode (new_constraint_defaults "COPY_SCALE")) ].

(** Two scenes with the same source and target and, for every armature,
    the same pose bones. *)
Definition same_scene (scn1 scn2 : Scene) : Prop :=
  nh_sync_source scn1 = nh_sync_source scn2 ∧
  nh_sync_target scn1 = nh_sync_target scn2 ∧
  ∀ a, pose_bones scn1 a = pose_bones scn2 a.

(** No pose bone of the armature has a sync constraint. *)
Definition no_sync_constraints (bones : gmap string (list Constraint)) : Prop :=
  ∀ n constraints, bones !! n = Some constraints →
    has_sync_constraint constraints = false.

(** The panel with the given matching bones, all synced or all not. *)
Definition panel_with_rows (all_synced : bool) (names : list string) : list Widget :=
  [ Box [Label "NONE" "Source Armature"; PropField "nh_sync_source" ""];
    Box [Label "NONE" "Target Armature"; PropField "nh_sync_target" ""];
    Box (Label "NONE" ("Matching bones: " +:+ pretty (length names)) ::
         (bone_row all_synced <$> names));
    OperatorButton "nh.apply_sync_transform" "CON_TRACKTO";
    OperatorButton "nh.remove_sync_transform" "X" ].

(** ** An example scene *)

Definition example_store_subtarget (owner : obj_ref) (bone : string)
    (tgt : option obj_ref) (sub : string) : string :=
  if decide (tgt = Some owner ∧ sub = bone) then "" else sub.

(** A host for the examples: the defaults of a fresh constraint, names cut
    to 63 bytes, and no pose bone constrained to itself. *)
Definition example_host : HostOps.
Proof.
  refine {| new_constraint_defaults := λ ty,
              {| ctype := ty; name := ty; target := None; subtarget := "";
                 target_space := "WORLD"; owner_space := "WORLD";
                 use_x := true; use_y := true; use_z := true;
                 mix_mode := "REPLACE" |};
            store_name := String.substring 0 63;
            store_subtarget := example_store_subtarget |}.
  - intros s. generalize 63.
    induction s as [|a s IH]; intros [|k]; simpl; try done; try lia.
    intros Hk. f_equal. apply IH. lia.
  - intros s. exists 63. split; [lia|done].
  - intros owner bone. unfold example_store_subtarget. by rewrite decide_True.
  - intros owner bone tgt sub Hne. unfold example_store_subtarget.
    rewrite decide_False; [done|]. intros [-> ->]. by destruct Hne.
Defined.

(** A constraint left behind by an earlier sync, and an unrelated one. *)
Definition stale_sync : Constraint :=
  {| ctype := "COPY_ROTATION"; name := "NH_SYNC_ROT_hip"; target := Some 7;
     subtarget := "hip"; target_space := "LOCAL"; owner_space := "LOCAL";
     use_x := true; use_y := false; use_z := true; mix_mode := "ADD" |}.

Definition ik : Constraint :=
  {| ctype := "IK"; name := "IK"; target := None; subtarget := "";
     target_space := "WORLD"; owner_space := "WORLD";
     use_x := false; use_y := false; use_z := false; mix_mode := "" |}.

(** Object 1 is the source with the bones [hip] and [arm]; object 2 is the
    target with the bones [hip] and [tail]. *)
Definition example_pose (a : obj_ref) : gmap string (list Constraint) :=
  if decide (a = 1) then {[ "hip" := []; "arm" := [] ]}
  else if decide (a = 2) then {[ "hip" := [stale_sync; ik]; "tail" := [stale_sync] ]}
  else ∅.

Definition example_scene : Scene :=
  {| nh_sync_source := Some 1; nh_sync_target := Some 2;
     pose_bones := example_pose |}.

Definition unset_scene : Scene :=
  {| nh_sync_source := None; nh_sync_target := None;
     pose_bones := example_pose |}.

(** A scene in which the armature 1 is both source and target. *)
Definition self_scene : Scene :=
  {| nh_sync_source := Some 1; nh_sync_target := Some 1;
     pose_bones := example_pose |}.

(** A scene whose target has no sync constraint. *)
Definition clean_pose (a : obj_ref) : gmap string (list Constraint) :=
  if decide (a = 1) then {[ "hip" := []; "arm" := [] ]}
  else if decide (a = 2) then {[ "hip" := [ik]; "tail" := [] ]}
  else ∅.

Definition clean_scene : Scene :=
  {| nh_sync_source := Some 1; nh_sync_target := Some 2;
     pose_bones := clean_pose |}.

End SyncTransform.

(* ================================================================== *)
(** * Properties of NH_BoneCleaner *)
(* ================================================================== *)

Module BoneCleanerSpec.
Import BoneCleaner.

Lemma positive_spec (w : Q) : positive w = true ↔ (0 < w)%Q.
Proof.
  unfold positive, Qlt; simpl. rewrite Z.ltb_lt. lia.
Qed.

(** ** Usage detection *)

Lemma vertex_groups_find_lookup vgs n i :
  vertex_groups_find vgs n = Some i → vgs !! i = Some n.
Proof.
  revert i. induction vgs as [|a vgs IH]; intros i; simpl; [done|].
  destruct (String.eqb_spec a n) as [->|Hne].
  - by intros [= <-].
  - destruct (vertex_groups_find vgs n) as [j|] eqn:Hj; simpl; [|done].
    intros [= <-]. simpl. by apply IH.
Qed.

Lemma vertex_groups_find_elem vgs n :
  n ∈ vgs → is_Some (vertex_groups_find vgs n).
Proof.
  induction 1 as [n vgs|n a vgs _ IH]; simpl.
  - rewrite String.eqb_refl. eauto.
  - destruct (String.eqb a n); [eauto|].
    destruct IH as [j ->]. simpl. eauto.
Qed.

Lemma vertex_groups_find_NoDup vgs n i :
  NoDup vgs → vgs !! i = Some n → vertex_groups_find vgs n = Some i.
Proof.
  intros Hnd Hi.
  destruct (vertex_groups_find_elem vgs n) as [j Hj].
  { eapply list_elem_of_lookup_2; eauto. }
  apply vertex_groups_find_lookup in Hj as Hj'.
  by rewrite (NoDup_lookup _ _ _ _ Hnd Hi Hj').
Qed.

Lemma existsb_positive_weights mesh n :
  existsb positive (get_vertex_group_weights mesh n) = true ↔
  ∃ idx, vertex_groups_find (vertex_groups mesh) n = Some idx ∧
         has_positive_entry mesh idx.
Proof.
  unfold get_vertex_group_weights, has_positive_entry.
  rewrite existsb_exists.
  destruct (vertex_groups_find (vertex_groups mesh) n) as [idx|]; split.
  - intros (w & Hin & Hw). exists idx; split; [done|].
    apply list_elem_of_In, list_elem_of_bind in Hin as (v & Hin & Hv).
    apply list_elem_of_bind in Hin as (g & Hin & Hg).
    case_decide; [|by apply elem_of_nil in Hin].
    apply list_elem_of_singleton in Hin as ->.
    exists v, g. by rewrite <- positive_spec.
  - intros (? & [= <-] & v & g & Hv & Hg & Hidx & Hw).
    exists (weight g). split; [|by apply positive_spec].
    apply list_elem_of_In, list_elem_of_bind. exists v; split; [|done].
    apply list_elem_of_bind. exists g; split; [|done].
    rewrite decide_True by done. apply list_elem_of_singleton; done.
  - by intros (w & [] & _).
  - by intros (? & [=] & _).
Qed.

Lemma elem_of_mark_groups mesh names used n :
  n ∈ foldl (mark_group mesh) used names ↔
  n ∈ used ∨ (n ∈ names ∧ existsb positive (get_vertex_group_weights mesh n) = true).
Proof.
  revert used. induction names as [|a names IH]; intros used; simpl.
  - rewrite elem_of_nil. tauto.
  - rewrite IH, elem_of_cons. unfold mark_group.
    destruct (existsb positive (get_vertex_group_weights mesh a)) eqn:Ha.
    + rewrite elem_of_union, elem_of_singleton.
      intuition (subst; auto).
    + intuition (subst; auto; congruence).
Qed.

Lemma elem_of_mark_meshes mod_name arm meshes used n :
  n ∈ foldl (mark_mesh mod_name arm) used meshes ↔
  n ∈ used ∨ ∃ mesh, mesh ∈ meshes ∧ n ∈ mark_mesh mod_name arm ∅ mesh.
Proof.
  revert used. induction meshes as [|a meshes IH]; intros used; simpl.
  - setoid_rewrite elem_of_nil. split; [auto|]. by intros [?|(? & [] & _)].
  - rewrite IH. setoid_rewrite elem_of_cons. split.
    + intros [Hn|(mesh & Hin & Hn)]; [|by eauto 6].
      unfold mark_mesh in Hn |- *. destruct (carries mod_name arm a) eqn:Hc; [|by left].
      apply elem_of_mark_groups in Hn as [?|Hn]; [by left|].
      right. exists a. split; [by left|]. rewrite Hc.
      apply elem_of_mark_groups. by right.
    + intros [Hn|(mesh & [->|Hin] & Hn)]; [|left|by eauto 6].
      * left. unfold mark_mesh. destruct (carries mod_name arm a); [|done].
        apply elem_of_mark_groups. by left.
      * unfold mark_mesh in Hn |- *. destruct (carries mod_name arm a); [|set_solver].
        apply elem_of_mark_groups in Hn as [?|Hn]; [set_solver|].
        apply elem_of_mark_groups. by right.
Qed.

(** C1.  The usage-detection step of Select Unused Bones: while it handles
    a selected mesh that carries the chosen armature modifier, it marks the
    name of a vertex group of that mesh as used if and only if some vertex
    of the mesh has a strictly positive weight entry for that group; the
    used set is the union of what is marked for the meshes.  Vertex-group
    names are unique within a mesh. *)
Theorem used_detection_iff (mod_name : string) (arm : obj_ref) (meshes : list Object) :
  Forall (λ mesh, NoDup (vertex_groups mesh)) meshes →
  (∀ mesh i n,
     mesh ∈ meshes → carries mod_name arm mesh = true →
     vertex_groups mesh !! i = Some n →
     (n ∈ mark_mesh mod_name arm ∅ mesh ↔ has_positive_entry mesh i)) ∧
  (∀ n, n ∈ detect_used_bones mod_name arm meshes ↔
        ∃ mesh, mesh ∈ meshes ∧ n ∈ mark_mesh mod_name arm ∅ mesh).
Proof.
  intros Hnd. split.
  - intros mesh i n Hin Hc Hi.
    rewrite Forall_forall in Hnd. specialize (Hnd _ Hin).
    unfold mark_mesh. rewrite Hc, elem_of_mark_groups, existsb_positive_weights.
    rewrite (vertex_groups_find_NoDup _ _ _ Hnd Hi). split.
    + intros [Hemp|(_ & idx & [= <-] & Hpos)]; [set_solver|done].
    + intros Hpos. right. split; [by eapply list_elem_of_lookup_2|eauto].
  - intros n. unfold detect_used_bones. rewrite elem_of_mark_meshes. set_solver.
Qed.

Lemma used_detection_iff_witness :
  Forall (λ mesh, NoDup (vertex_groups mesh)) [body; hair] ∧
  "head" ∈ detect_used_bones "Armature" 1 [body; hair].
Proof.
  assert (Forall (λ mesh, NoDup (vertex_groups mesh)) [body; hair]) as Hnd.
  { repeat constructor; by apply (bool_decide_unpack _). }
  split; [exact Hnd|].
  destruct (used_detection_iff "Armature" 1 [body; hair] Hnd) as [Hmesh Hall].
  apply Hall. exists body. split; [left|].
  apply (Hmesh body 0 "head"); [left|reflexivity|reflexivity|].
  exists {| groups := [ {| group := 0; weight := 1 # 2 |};
                        {| group := 1; weight := 0 |} ] |},
         {| group := 0; weight := 1 # 2 |}.
  split_and!; [left|left|reflexivity|reflexivity].
Defined.

(** ** Hierarchy expansion *)

Lemma bones_get_Some bs n b :
  bones_get bs n = Some b ↔ b = n ∧ is_Some (bs !! n).
Proof.
  unfold bones_get. destruct (bs !! n); split.
  - intros [= <-]. eauto.
  - by intros [-> _].
  - done.
  - by intros [_ []].
Qed.

Lemma walk_elem fuel bs start acc E n :
  walk fuel bs start acc = Some E →
  n ∈ E ↔ n ∈ acc ∨ ∃ b, start = Some b ∧ rtc (parent_rel bs) b n.
Proof.
  revert start acc. induction fuel as [|fuel IH]; intros [b|] acc; simpl.
  - done.
  - intros [= <-]. split; [auto|]. by intros [?|(? & [=] & _)].
  - intros Hw. rewrite (IH _ _ Hw), elem_of_union, elem_of_singleton. split.
    + intros [[->|?]|(p & Hp & Hrtc)]; [right|by left|right].
      * exists b. split; [done|]. apply rtc_refl.
      * exists b. split; [done|]. by eapply rtc_l.
    + intros [?|(? & [= <-] & Hrtc)]; [by left; right|].
      apply rtc_inv in Hrtc as [->|(p & Hp & Hrtc)]; [by left; left|].
      right. exists p. split; [exact Hp|done].
  - intros [= <-]. split; [auto|]. by intros [?|(? & [=] & _)].
Qed.

Lemma expand_loop_elem fuel bs names acc E n :
  expand_loop fuel bs names acc = Some E →
  n ∈ E ↔ n ∈ acc ∨ ∃ u, u ∈ names ∧ is_Some (bs !! u) ∧ rtc (parent_rel bs) u n.
Proof.
  revert acc. induction names as [|a names IH]; intros acc; simpl.
  - intros [= <-]. split; [auto|]. intros [?|(? & Hin & _)]; [done|].
    by apply elem_of_nil in Hin.
  - destruct (walk fuel bs (bones_get bs a) acc) as [acc'|] eqn:Hw; [|done].
    intros He. rewrite (IH _ He), (walk_elem _ _ _ _ _ n Hw).
    setoid_rewrite elem_of_cons. setoid_rewrite bones_get_Some. split.
    + intros [[?|(b & [-> Hb] & Hrtc)]|(u & Hin & Hu & Hrtc)]; eauto 8.
    + intros [?|(u & [->|Hin] & Hu & Hrtc)]; eauto 8.
Qed.

Lemma walk_fuel_enough bs :
  acyclic bs →
  ∀ fuel (visited : gset string) b acc,
    (∀ v, v ∈ visited → ancestor bs v b) →
    visited ⊆ dom bs →
    size (dom bs ∖ visited) < fuel →
    is_Some (walk fuel bs (Some b) acc).
Proof.
  intros Hacyc. induction fuel as [|fuel IH]; intros visited b acc Hvis Hsub Hsz;
    [lia|]. simpl.
  destruct (bone_parent bs b) as [p|] eqn:Hp; [|destruct fuel; simpl; eauto].
  assert (b ∈ dom bs) as Hdom.
  { apply elem_of_dom. unfold bone_parent in Hp. destruct (bs !! b); eauto.
    discriminate. }
  assert (b ∉ visited) as Hfresh.
  { intros Hin. by apply (Hacyc b), Hvis. }
  apply (IH ({[b]} ∪ visited)).
  - intros v [->%elem_of_singleton|Hin]%elem_of_union.
    + by apply tc_once.
    + eapply tc_r; [by apply Hvis|done].
  - set_solver.
  - assert (dom bs ∖ ({[b]} ∪ visited) ⊂ dom bs ∖ visited) as Hlt by set_solver.
    apply subset_size in Hlt. lia.
Qed.

Lemma walk_terminates bs fuel start acc :
  acyclic bs → size bs < fuel → is_Some (walk fuel bs start acc).
Proof.
  intros Hacyc Hsz. destruct start as [b|].
  - apply (walk_fuel_enough bs Hacyc fuel ∅); [set_solver|set_solver|].
    rewrite difference_empty_L, size_dom. done.
  - destruct fuel; simpl; eauto.
Qed.

Lemma expand_loop_terminates bs fuel names acc :
  acyclic bs → size bs < fuel → is_Some (expand_loop fuel bs names acc).
Proof.
  intros Hacyc Hsz. revert acc. induction names as [|a names IH]; intros acc; simpl.
  - eauto.
  - destruct (walk_terminates bs fuel (bones_get bs a) acc Hacyc Hsz) as [acc' ->].
    apply IH.
Qed.

(** C2, as the code has it.  With the preserve-hierarchy option the used set
    is replaced by the set of the used names that name a bone of the
    armature, together with the names of all ancestors of these bones, and
    nothing else; on an armature without cycles the expansion returns this
    set once the fuel exceeds the number of bones. *)
Theorem expansion_characterised (fuel : nat) (bs : gmap string (option string))
    (used_bones : gset string) :
  (∀ E, expand_hierarchy fuel bs used_bones = Some E →
        ∀ n, n ∈ E ↔ in_hierarchy bs used_bones n) ∧
  (acyclic bs → size bs < fuel →
   is_Some (expand_hierarchy fuel bs used_bones)).
Proof.
  split.
  - intros E HE n. unfold expand_hierarchy in HE.
    rewrite (expand_loop_elem _ _ _ _ _ n HE). unfold in_hierarchy, ancestor.
    setoid_rewrite elem_of_elements. setoid_rewrite rtc_tc. split.
    + intros [Hemp|(u & Hu & Hb & Hn)]; [set_solver|].
      exists u. intuition.
    + intros (u & Hu & Hb & Hn). right. exists u. intuition.
  - intros. by apply expand_loop_terminates.
Qed.

Lemma acyclic_by_rank bs (rank : string → nat) :
  (∀ b p, parent_rel bs b p → rank p < rank b) → acyclic bs.
Proof.
  intros Hrank.
  assert (∀ b a, ancestor bs b a → rank a < rank b) as Hanc.
  { induction 1 as [b p Hp|b p a Hp _ IH]; [by apply Hrank|].
    apply Hrank in Hp. lia. }
  intros b Hb. apply Hanc in Hb. lia.
Qed.

Lemma rig_bones_acyclic : acyclic rig_bones.
Proof.
  apply (acyclic_by_rank _
    (λ b, if decide (b = "root") then 0 else if decide (b = "head") then 2 else 1)).
  intros b p Hp. unfold parent_rel, bone_parent, rig_bones in Hp.
  rewrite !lookup_insert, lookup_singleton in Hp.
  repeat case_decide; simplify_eq; vm_compute; lia.
Qed.

Lemma expansion_characterised_witness :
  ∃ E, expand_hierarchy 5 rig_bones {["head"; "cloth"]} = Some E ∧
       ("spine" ∈ E ↔ in_hierarchy rig_bones {["head"; "cloth"]} "spine").
Proof.
  destruct (expansion_characterised 5 rig_bones {["head"; "cloth"]}) as [Hchar Hres].
  destruct Hres as [E HE]; [exact rig_bones_acyclic|vm_compute; lia|].
  exists E. split; [exact HE|]. exact (Hchar E HE "spine").
Defined.

(** A used name that names no bone of the armature is not in the expanded
    set: the vertex group [cloth] of the example mesh is used, and the
    expansion over the example rig drops it. *)
Lemma expansion_drops_names_without_bone :
  "cloth" ∈ detect_used_bones "Armature" 1 [body] ∧
  ∃ E, expand_hierarchy 5 rig_bones (detect_used_bones "Armature" 1 [body]) = Some E ∧
       ("cloth" ∉ E) ∧
       (¬ keeps_used_and_adds_ancestors rig_bones
            (detect_used_bones "Armature" 1 [body]) E).
Proof.
  assert ("cloth" ∈ detect_used_bones "Armature" 1 [body]) as Hused.
  { by apply (bool_decide_unpack _). }
  split; [exact Hused|].
  exists {["head"; "spine"; "root"]}.
  assert ("cloth" ∉ ({["head"; "spine"; "root"]} : gset string)) as Hnot.
  { by apply (bool_decide_unpack _). }
  split_and!; [by vm_compute|exact Hnot|].
  intros Hall. apply Hnot, Hall. by left.
Qed.

(** ** Weight sums *)

Lemma elem_of_group_entries mesh idx w :
  w ∈ group_entries mesh idx ↔
  ∃ v g, v ∈ vertices mesh ∧ g ∈ groups v ∧ group g = idx ∧ weight g = w.
Proof.
  unfold group_entries. rewrite list_elem_of_bind. split.
  - intros (v & Hin & Hv). apply list_elem_of_bind in Hin as (g & Hin & Hg).
    case_decide; [|by apply elem_of_nil in Hin].
    apply list_elem_of_singleton in Hin as ->. by exists v, g.
  - intros (v & g & Hv & Hg & Hidx & <-). exists v. split; [|done].
    apply list_elem_of_bind. exists g. split; [|done].
    rewrite decide_True by done. by apply list_elem_of_singleton.
Qed.

Lemma Qsum_nonneg ws :
  (∀ w, w ∈ ws → (0 <= w)%Q) → (0 <= Qsum ws)%Q.
Proof.
  induction ws as [|a ws IH]; intros Hnn; simpl.
  - lra.
  - assert (0 <= a)%Q by (apply Hnn; left).
    assert (0 <= Qsum ws)%Q by (apply IH; intros; apply Hnn; by right).
    lra.
Qed.

Lemma Qsum_nonzero_iff ws :
  (∀ w, w ∈ ws → (0 <= w)%Q) →
  ¬ (Qsum ws == 0)%Q ↔ ∃ w, w ∈ ws ∧ (0 < w)%Q.
Proof.
  induction ws as [|a ws IH]; intros Hnn; simpl.
  - split; [intros Hne; destruct Hne; reflexivity|].
    intros (w & Hin & _). by apply elem_of_nil in Hin.
  - assert (0 <= a)%Q as Ha by (apply Hnn; left).
    assert (∀ w, w ∈ ws → (0 <= w)%Q) as Hws by (intros; apply Hnn; by right).
    pose proof (Qsum_nonneg ws Hws) as Hs. specialize (IH Hws). split.
    + intros Hne. destruct (Qlt_le_dec 0 a) as [Hpos|Hle].
      * exists a. split; [left|done].
      * destruct IH as [IH _]. destruct IH as (w & Hin & Hw).
        { intros Hz. apply Hne. lra. }
        exists w. split; [by right|done].
    + intros (w & [->|Hin]%elem_of_cons & Hw) Hz; [lra|].
      destruct IH as [_ IH]. apply IH; [eauto|]. lra.
Qed.

Lemma elem_of_used_in_vertex (gs : list VertexGroupElement) (used : gset nat) i :
  i ∈ foldl (λ used g, if positive (weight g) then {[group g]} ∪ used else used)
            used gs ↔
  i ∈ used ∨ ∃ g, g ∈ gs ∧ group g = i ∧ (0 < weight g)%Q.
Proof.
  revert used. induction gs as [|a gs IH]; intros used; simpl.
  - split; [auto|]. by intros [?|(? & ?%elem_of_nil & _)].
  - rewrite IH. setoid_rewrite elem_of_cons.
    destruct (positive (weight a)) eqn:Hp.
    + apply positive_spec in Hp. rewrite elem_of_union, elem_of_singleton. split.
      * intros [[->|?]|(g & ? & ? & ?)]; eauto 8.
      * intros [?|(g & [->|?] & <- & ?)]; eauto 8.
    + split.
      * intros [?|(g & ? & ? & ?)]; eauto 8.
      * intros [?|(g & [->|?] & ? & Hw)]; eauto 8.
        apply positive_spec in Hw. congruence.
Qed.

Lemma elem_of_used_group_indices mesh i :
  i ∈ used_group_indices mesh ↔ has_positive_entry mesh i.
Proof.
  unfold used_group_indices, has_positive_entry.
  assert (∀ vs (used : gset nat),
    i ∈ foldl (λ used v,
                 foldl (λ used g,
                          if positive (weight g) then {[group g]} ∪ used else used)
                       used (groups v)) used vs ↔
    i ∈ used ∨ ∃ v g, v ∈ vs ∧ g ∈ groups v ∧ group g = i ∧ (0 < weight g)%Q) as Hgen.
  { induction vs as [|a vs IH]; intros used; simpl.
    - split; [auto|]. by intros [?|(? & ? & ?%elem_of_nil & _)].
    - rewrite IH, elem_of_used_in_vertex. setoid_rewrite elem_of_cons. split.
      + intros [[?|(g & ? & ? & ?)]|(v & g & ? & ? & ? & ?)]; eauto 10.
      + intros [?|(v & g & [->|?] & ? & ? & ?)]; eauto 10. }
  rewrite Hgen. split; [|auto]. intros [Hemp|?]; [set_solver|done].
Qed.

Lemma spec_used_iff_positive_entry mesh i :
  nonnegative_weights mesh →
  spec_used_by_weight_sum mesh i ↔ has_positive_entry mesh i.
Proof.
  intros Hnn. unfold spec_used_by_weight_sum. rewrite Qsum_nonzero_iff.
  - unfold has_positive_entry. setoid_rewrite elem_of_group_entries. split.
    + intros (w & (v & g & ? & ? & ? & <-) & ?). by exists v, g.
    + intros (v & g & ? & ? & ? & ?). exists (weight g). split; [|done].
      by exists v, g.
  - intros w (v & g & ? & ? & ? & <-)%elem_of_group_entries. by eapply Hnn.
Qed.

(** C6.  On a mesh whose weight entries are all nonnegative, the detection
    by weight sum (a group is used when the sum of its entries is not zero)
    classifies every vertex group as the operators do: as Select Unused
    Bones, which asks for a positive entry among the weights it collects for
    the group's name, and as Delete Unused Vertex Groups, which collects the
    indices of the groups with a positive entry. *)
Theorem weight_sum_detection_agrees (mesh : Object) (i : nat) (n : string) :
  nonnegative_weights mesh →
  NoDup (vertex_groups mesh) →
  vertex_groups mesh !! i = Some n →
  (spec_used_by_weight_sum mesh i ↔
   existsb positive (get_vertex_group_weights mesh n) = true) ∧
  (spec_used_by_weight_sum mesh i ↔ i ∈ used_group_indices mesh).
Proof.
  intros Hnn Hnd Hi. rewrite (spec_used_iff_positive_entry _ _ Hnn). split.
  - rewrite existsb_positive_weights, (vertex_groups_find_NoDup _ _ _ Hnd Hi).
    split; [eauto|]. by intros (? & [= <-] & ?).
  - by rewrite elem_of_used_group_indices.
Qed.

Lemma body_nonnegative_weights : nonnegative_weights body.
Proof.
  intros v g Hv Hg. simpl in Hv.
  repeat (apply elem_of_cons in Hv as [->|Hv]; simpl in Hg;
          [repeat (apply elem_of_cons in Hg as [->|Hg]; [by vm_compute|]);
           by apply elem_of_nil in Hg|]).
  by apply elem_of_nil in Hv.
Qed.

Lemma weight_sum_detection_agrees_witness :
  (spec_used_by_weight_sum body 1 ↔
   existsb positive (get_vertex_group_weights body "tail") = true) ∧
  (spec_used_by_weight_sum body 1 ↔ 1 ∈ used_group_indices body).
Proof.
  apply (weight_sum_detection_agrees body 1 "tail").
  - exact body_nonnegative_weights.
  - by apply (bool_decide_unpack _).
  - reflexivity.
Defined.

(** ** The Select Unused Bones operator *)

Section Operators.
Context `{HostOps}.

Lemma SelectUnusedBones_execute_cases fuel ctx :
  match selected_meshes ctx, chosen_armature ctx with
  | [], _ =>
      SelectUnusedBones_execute fuel ctx =
      Some (Returned
              (CANCELLED, Some ("ERROR", "At least one mesh must be selected."), ctx))
  | _ :: _, None =>
      SelectUnusedBones_execute fuel ctx =
      Some (Returned
              (CANCELLED,
               Some ("ERROR", "Modifier not found or inconsistent across meshes."),
               ctx))
  | _ :: _, Some arm =>
      SelectUnusedBones_execute fuel ctx =
      (used_bones ← final_used_bones fuel ctx arm;
       Some (switch_and_select arm used_bones ctx))
  end.
Proof.
  unfold SelectUnusedBones_execute, chosen_armature, final_used_bones.
  destruct (selected_meshes ctx) as [|m ms] eqn:Hm; [done|].
  destruct (find_common_armature_modifier (m :: ms)) as [common mod_map]; simpl.
  destruct (mod_map !! modifier_name (bone_cleaner_props ctx)); [|done].
  destruct (preserve_hierarchy (bone_cleaner_props ctx)); [|done].
  by destruct (expand_hierarchy _ _ _).
Qed.

(** The three ways the mode switches and the selection can end. *)
Lemma switch_and_select_entered arm used_bones ctx entered :
  entered_edit_mode arm ctx = Some entered →
  switch_and_select arm used_bones ctx =
  Returned (FINISHED, None, select_unused arm used_bones entered).
Proof.
  unfold entered_edit_mode, switch_and_select.
  destruct (mode_set "OBJECT" ctx) as [ctx1|]; simpl; [|done].
  by intros ->.
Qed.

Lemma switch_and_select_refused arm used_bones ctx :
  entered_edit_mode arm ctx = None →
  ∃ ctx', switch_and_select arm used_bones ctx = Raised ctx'.
Proof.
  unfold entered_edit_mode, switch_and_select.
  destruct (mode_set "OBJECT" ctx) as [ctx1|]; simpl; [|eauto].
  intros ->. eauto.
Qed.

Lemma switch_and_select_returned arm used_bones ctx st r ctx' :
  switch_and_select arm used_bones ctx = Returned (st, r, ctx') →
  st = FINISHED ∧ r = None ∧
  ∃ entered, entered_edit_mode arm ctx = Some entered ∧
             ctx' = select_unused arm used_bones entered.
Proof.
  destruct (entered_edit_mode arm ctx) as [entered|] eqn:He.
  - rewrite (switch_and_select_entered _ _ _ _ He). intros [= <- <- <-]. eauto.
  - destruct (switch_and_select_refused arm used_bones ctx He) as [c ->]. done.
Qed.

Lemma SelectUnusedBones_execute_finished fuel ctx r ctx' :
  SelectUnusedBones_execute fuel ctx = Some (Returned (FINISHED, r, ctx')) →
  ∃ arm used_bones entered,
    chosen_armature ctx = Some arm ∧
    final_used_bones fuel ctx arm = Some used_bones ∧
    entered_edit_mode arm ctx = Some entered ∧
    ctx' = select_unused arm used_bones entered.
Proof.
  pose proof (SelectUnusedBones_execute_cases fuel ctx) as Hc.
  destruct (selected_meshes ctx); [by rewrite Hc|].
  destruct (chosen_armature ctx) as [arm|]; [|by rewrite Hc].
  rewrite Hc. destruct (final_used_bones fuel ctx arm) as [used|] eqn:Hf; [|done].
  simpl. intros [= (_ & _ & entered & He & ->)%switch_and_select_returned].
  by exists arm, used, entered.
Qed.

(** Without an active object the first mode switch is refused: the run ends
    with the error once the walks have ended, and returns no result. *)
Lemma SelectUnusedBones_execute_no_active fuel ctx arm :
  active ctx = None →
  selected_meshes ctx ≠ [] →
  chosen_armature ctx = Some arm →
  SelectUnusedBones_execute fuel ctx =
  (_ ← final_used_bones fuel ctx arm; Some (Raised ctx)).
Proof.
  intros Hact Hne Harm.
  pose proof (SelectUnusedBones_execute_cases fuel ctx) as Hc.
  destruct (selected_meshes ctx); [done|]. rewrite Harm in Hc. rewrite Hc.
  destruct (final_used_bones fuel ctx arm); simpl; [|done].
  unfold switch_and_select. by rewrite (mode_set_needs_active "OBJECT" ctx Hact).
Qed.

Lemma select_unused_edit_bones arm used_bones ctx :
  edit_bones (armature_data (select_unused arm used_bones ctx) arm) =
  set_select used_bones <$> edit_bones (armature_data ctx arm).
Proof. unfold select_unused; simpl. by rewrite fn_lookup_insert. Qed.

Lemma set_select_exactly_unused used_bones ebs :
  selects_exactly_unused used_bones ebs (set_select used_bones <$> ebs).
Proof.
  unfold selects_exactly_unused. apply Forall2_fmap_r, Forall_Forall2_diag.
  apply Forall_forall. intros b _. simpl. split; [done|].
  apply bool_decide_eq_true.
Qed.

(** C8.  When Select Unused Bones returns FINISHED, both mode switches
    were accepted and the edit bones of the chosen armature are the ones
    the armature has on entering Edit Mode, every one with its selection
    state written: a bone is selected if and only if its name is not in the
    used set, which is the detected set, or its hierarchy expansion when
    the option is on. *)
Theorem finished_selects_exactly_unused (fuel : nat) (ctx ctx' : Context)
    (r : option Report) :
  SelectUnusedBones_execute fuel ctx = Some (Returned (FINISHED, r, ctx')) →
  ∃ arm used_bones entered,
    chosen_armature ctx = Some arm ∧
    final_used_bones fuel ctx arm = Some used_bones ∧
    entered_edit_mode arm ctx = Some entered ∧
    selects_exactly_unused used_bones
      (edit_bones (armature_data entered arm))
      (edit_bones (armature_data ctx' arm)).
Proof.
  intros (arm & used & entered & Harm & Hused & He & ->)%SelectUnusedBones_execute_finished.
  exists arm, used, entered. split_and!; [done..|].
  rewrite select_unused_edit_bones. apply set_select_exactly_unused.
Qed.

(** ** Termination *)

Lemma walk_mono fuel fuel' bs start acc E :
  walk fuel bs start acc = Some E → fuel ≤ fuel' →
  walk fuel' bs start acc = Some E.
Proof.
  revert fuel' start acc. induction fuel as [|fuel IH]; intros fuel' [b|] acc; simpl.
  - done.
  - intros [= <-] _. by destruct fuel'.
  - intros Hw Hle. destruct fuel' as [|fuel']; [lia|]. simpl.
    apply IH; [done|lia].
  - intros [= <-] _. by destruct fuel'.
Qed.

(** On a cycle the walk never ends: it runs out of every amount of fuel. *)
Lemma walk_on_cycle_runs_out fuel acc :
  walk fuel {["a" := Some "a"]} (Some "a") acc = None.
Proof.
  revert acc. induction fuel as [|fuel IH]; intros acc; simpl; [done|].
  unfold bone_parent. rewrite lookup_singleton_eq. apply IH.
Qed.

Lemma final_used_bones_terminates fuel ctx arm :
  acyclic (bones (armature_data ctx arm)) →
  size (bones (armature_data ctx arm)) < fuel →
  is_Some (final_used_bones fuel ctx arm).
Proof.
  intros Hacyc Hfuel. unfold final_used_bones.
  destruct (preserve_hierarchy (bone_cleaner_props ctx)); [|eauto].
  by apply expand_loop_terminates.
Qed.

(** C9.  The walk that follows the parent links ends for every starting
    bone when the parent relation of the armature has no cycle: it needs at
    most one iteration more than the armature has bones.  The run of
    Select Unused Bones, the one operator with such a walk, then ends: it
    returns a result, or stops at the error of a refused mode switch.  All
    other loops of the add-ons are passes over the elements of a list, a set
    or a map, which the model writes as structural recursion. *)
Theorem walks_and_operator_terminate :
  (∀ bs fuel start acc,
     acyclic bs → size bs < fuel → is_Some (walk fuel bs start acc)) ∧
  (∀ ctx,
     (∀ arm, chosen_armature ctx = Some arm →
             acyclic (bones (armature_data ctx arm))) →
     ∃ fuel0, ∀ fuel, fuel0 ≤ fuel →
       is_Some (SelectUnusedBones_execute fuel ctx)).
Proof.
  split; [intros; by apply walk_terminates|].
  intros ctx Hacyc.
  pose proof (λ fuel, SelectUnusedBones_execute_cases fuel ctx) as Hc.
  destruct (selected_meshes ctx); [exists 0; intros; rewrite Hc; eauto|].
  destruct (chosen_armature ctx) as [arm|]; [|exists 0; intros; rewrite Hc; eauto].
  exists (S (size (bones (armature_data ctx arm)))). intros fuel Hfuel.
  rewrite Hc. unfold final_used_bones.
  destruct (preserve_hierarchy (bone_cleaner_props ctx)); simpl; [|eauto].
  unfold expand_hierarchy.
  destruct (expand_loop_terminates (bones (armature_data ctx arm)) fuel
    (elements (detect_used_bones (modifier_name (bone_cleaner_props ctx)) arm
       (selected_meshes ctx))) ∅) as [E ->]; [by apply Hacyc|lia|].
  simpl. eauto.
Qed.

End Operators.

Lemma finished_selects_exactly_unused_witness :
  ∃ ctx' arm used_bones entered,
    SelectUnusedBones_execute (H:=example_host) 5 (example_context [body; hair]) =
      Some (Returned (FINISHED, None, ctx')) ∧
    chosen_armature (example_context [body; hair]) = Some arm ∧
    final_used_bones 5 (example_context [body; hair]) arm = Some used_bones ∧
    entered_edit_mode (H:=example_host) arm (example_context [body; hair]) =
      Some entered ∧
    selects_exactly_unused used_bones
      (edit_bones (armature_data entered arm))
      (edit_bones (armature_data ctx' arm)).
Proof.
  assert (SelectUnusedBones_execute (H:=example_host) 5
            (example_context [body; hair]) =
          Some (Returned
                  (FINISHED, None,
                   select_unused 1 {["head"; "spine"; "root"]}
                     (example_edit_context [body; hair])))) as Hex.
  { by vm_compute. }
  destruct (finished_selects_exactly_unused (H:=example_host) 5
              (example_context [body; hair]) _ None Hex)
    as (arm & used & entered & Harm & Hused & He & Hsel).
  eexists _, arm, used, entered.
  split_and!; [exact Hex|exact Harm|exact Hused|exact He|exact Hsel].
Defined.

Lemma walks_and_operator_terminate_witness :
  is_Some (walk 5 rig_bones (Some "head") ∅) ∧
  ∃ fuel0, ∀ fuel, fuel0 ≤ fuel →
    is_Some (SelectUnusedBones_execute (H:=example_host) fuel
               (example_context [body; hair])).
Proof.
  destruct (walks_and_operator_terminate (H:=example_host)) as [Hwalk Hop].
  split.
  - apply Hwalk; [exact rig_bones_acyclic|vm_compute; lia].
  - apply Hop. intros arm _. exact rig_bones_acyclic.
Defined.

(** ** The choice of the modifier *)

Lemma counts_for_spec k m : counts_for k m = true ↔ armature_modifier_named k m.
Proof.
  unfold counts_for, armature_modifier_named.
  rewrite !andb_true_iff, bool_decide_eq_true, !String.eqb_eq. tauto.
Qed.

Lemma counter_get_incr k k' cnt :
  counter_get k (counter_incr k' cnt) =
  if decide (k = k') then S (counter_get k cnt) else counter_get k cnt.
Proof.
  induction cnt as [|[k0 c] cnt IH]; simpl.
  - destruct (String.eqb_spec k' k); case_decide; congruence.
  - destruct (String.eqb_spec k0 k') as [->|Hne]; simpl.
    + destruct (String.eqb_spec k' k); case_decide; congruence.
    + destruct (String.eqb_spec k0 k) as [->|Hne']; [|done].
      by rewrite decide_False.
Qed.

Lemma counter_incr_keys k cnt :
  (counter_incr k cnt).*1 = cnt.*1 ∨
  ((k ∉ cnt.*1) ∧ (counter_incr k cnt).*1 = cnt.*1 ++ [k]).
Proof.
  induction cnt as [|[k0 c] cnt IH]; csimpl.
  - right. split; [apply not_elem_of_nil|done].
  - destruct (String.eqb_spec k0 k) as [->|Hne]; csimpl; [by left|].
    destruct IH as [->|[Hk ->]]; [by left|right].
    split; [|done]. by intros [?|?]%elem_of_cons.
Qed.

Lemma counter_incr_NoDup k cnt : NoDup cnt.*1 → NoDup (counter_incr k cnt).*1.
Proof.
  intros Hnd. destruct (counter_incr_keys k cnt) as [->|[Hk ->]]; [done|].
  apply NoDup_app. split_and!; [done| |apply NoDup_singleton].
  intros x Hx ->%list_elem_of_singleton. done.
Qed.

Lemma counter_get_elem k c cnt :
  NoDup cnt.*1 → (k, c) ∈ cnt → counter_get k cnt = c.
Proof.
  induction cnt as [|[k0 c0] cnt IH]; simpl; intros Hnd Hin.
  - by apply elem_of_nil in Hin.
  - apply NoDup_cons in Hnd as [Hk0 Hnd].
    apply elem_of_cons in Hin as [[= <- <-]|Hin].
    + by rewrite String.eqb_refl.
    + destruct (String.eqb_spec k0 k) as [->|Hne]; [|by apply IH].
      destruct Hk0. apply list_elem_of_fmap. by exists (k, c).
Qed.

Lemma scan_modifier_count k st m :
  counter_get k (scan_modifier st m).1 =
  counter_get k st.1 + (if counts_for k m then 1 else 0).
Proof.
  unfold scan_modifier, counts_for.
  destruct (String.eqb (mod_type m) "ARMATURE"); simpl; [|lia].
  destruct (mod_object m) as [o|]; simpl; [|lia].
  rewrite counter_get_incr.
  destruct (String.eqb_spec (mod_name m) k); case_decide; try congruence; lia.
Qed.

Lemma scan_modifier_NoDup st m : NoDup st.1.*1 → NoDup (scan_modifier st m).1.*1.
Proof.
  unfold scan_modifier. destruct (String.eqb (mod_type m) "ARMATURE"); [|done].
  destruct (mod_object m); [|done]. simpl. apply counter_incr_NoDup.
Qed.

Lemma scan_modifiers_count k mods st :
  counter_get k (foldl scan_modifier st mods).1 =
  counter_get k st.1 + occurrences k mods.
Proof.
  unfold occurrences. revert st. induction mods as [|m mods IH]; intros st; simpl.
  - lia.
  - rewrite IH, scan_modifier_count. destruct (counts_for k m); simpl; lia.
Qed.

Lemma scan_modifiers_NoDup mods st :
  NoDup st.1.*1 → NoDup (foldl scan_modifier st mods).1.*1.
Proof.
  revert st. induction mods as [|m mods IH]; intros st Hnd; simpl; [done|].
  by apply IH, scan_modifier_NoDup.
Qed.

Lemma scan_meshes_count k meshes st :
  counter_get k (foldl scan_mesh st meshes).1 =
  counter_get k st.1 + sum_list (occurrences k ∘ modifiers <$> meshes).
Proof.
  revert st. induction meshes as [|mesh meshes IH]; intros st; csimpl.
  - lia.
  - rewrite IH. unfold scan_mesh at 1. rewrite scan_modifiers_count. lia.
Qed.

Lemma scan_meshes_NoDup meshes st :
  NoDup st.1.*1 → NoDup (foldl scan_mesh st meshes).1.*1.
Proof.
  revert st. induction meshes as [|mesh meshes IH]; intros st Hnd; simpl; [done|].
  by apply IH, scan_modifiers_NoDup.
Qed.

(** A name among the common modifiers occurs as often as there are
    meshes. *)
Lemma common_modifier_count k meshes :
  k ∈ (find_common_armature_modifier meshes).1.*1.*1 →
  sum_list (occurrences k ∘ modifiers <$> meshes) = length meshes.
Proof.
  unfold find_common_armature_modifier.
  pose proof (scan_meshes_count k meshes ([], ∅)) as Hcount.
  pose proof (scan_meshes_NoDup meshes ([], ∅) (NoDup_nil_2)) as Hnd.
  destruct (foldl scan_mesh ([], ∅) meshes) as [cnt mm]; simpl in *.
  rewrite <- !list_fmap_compose.
  intros ((k' & c) & -> & [Hc Hin]%list_elem_of_filter)%list_elem_of_fmap.
  simpl in *. subst c.
  rewrite (counter_get_elem _ _ _ Hnd Hin) in Hcount. lia.
Qed.

Lemma occurrences_le_1 k mods :
  NoDup (mod_name <$> mods) → occurrences k mods ≤ 1.
Proof.
  unfold occurrences. induction mods as [|m mods IH]; simpl; intros Hnd; [lia|].
  apply NoDup_cons in Hnd as [Hm Hnd]. specialize (IH Hnd).
  destruct (counts_for k m) eqn:Hkm; simpl; [|lia].
  apply counts_for_spec in Hkm as (_ & _ & Hname).
  destruct (List.filter (counts_for k) mods) as [|m' rest] eqn:Hf; simpl; [lia|].
  assert (m' ∈ List.filter (counts_for k) mods) as Hin by (rewrite Hf; left).
  apply list_elem_of_In, filter_In in Hin as [Hin Hm'].
  apply counts_for_spec in Hm' as (_ & _ & Hname').
  destruct Hm. apply list_elem_of_fmap. exists m'.
  split; [congruence|by apply list_elem_of_In].
Qed.

Lemma occurrences_pos k mods :
  0 < occurrences k mods → ∃ m, m ∈ mods ∧ armature_modifier_named k m.
Proof.
  unfold occurrences.
  destruct (List.filter (counts_for k) mods) as [|m rest] eqn:Hf; simpl; [lia|].
  intros _. assert (m ∈ List.filter (counts_for k) mods) as Hin by (rewrite Hf; left).
  apply list_elem_of_In, filter_In in Hin as [Hin Hm].
  exists m. split; [by apply list_elem_of_In|by apply counts_for_spec].
Qed.

Lemma full_count_all_present k meshes :
  Forall modifier_names_well_formed meshes →
  sum_list (occurrences k ∘ modifiers <$> meshes) = length meshes →
  present_on_all k meshes.
Proof.
  unfold present_on_all.
  induction meshes as [|mesh meshes IH]; csimpl; intros Hwf Hsum mesh' Hin.
  - by apply elem_of_nil in Hin.
  - apply Forall_cons in Hwf as [[Hnd _] Hwf].
    pose proof (occurrences_le_1 k _ Hnd) as Hle.
    assert (sum_list (occurrences k ∘ modifiers <$> meshes) ≤ length meshes) as Hrest.
    { clear -Hwf. induction Hwf as [|m ms [Hnd _] _ IH]; csimpl; [lia|].
      pose proof (occurrences_le_1 k _ Hnd). lia. }
    apply elem_of_cons in Hin as [->|Hin].
    + apply occurrences_pos. lia.
    + apply IH; [done|lia|done].
Qed.

(** A modifier name the property can hold and that names an armature
    modifier of some selected mesh names one of every selected mesh. *)
Lemma admissible_choice_is_common ctx :
  modifier_name_admissible ctx →
  Forall modifier_names_well_formed (selected_meshes ctx) →
  (∃ mesh m, mesh ∈ selected_meshes ctx ∧ m ∈ modifiers mesh ∧
             armature_modifier_named (modifier_name (bone_cleaner_props ctx)) m) →
  present_on_all (modifier_name (bone_cleaner_props ctx)) (selected_meshes ctx).
Proof.
  intros [Hempty|Hcommon] Hwf (mesh & m & Hmesh & Hm & Hnamed).
  - rewrite Forall_forall in Hwf. destruct (Hwf _ Hmesh) as [_ Hne].
    destruct Hne. apply list_elem_of_fmap. exists m. split; [|done].
    destruct Hnamed as (_ & _ & ->). done.
  - apply full_count_all_present; [done|]. by apply common_modifier_count.
Qed.

End BoneCleanerSpec.

(* ================================================================== *)
(** * Properties of NH_SyncTransform *)
(* ================================================================== *)

Module SyncTransformSpec.
Import SyncTransform.

(** ** Names and prefixes *)

Lemma prefix_spec p s :
  String.prefix p s = true ↔ ∃ rest, s = p +:+ rest.
Proof.
  revert s. induction p as [|a p IH]; intros s.
  - destruct s; simpl; split; eauto.
  - destruct s as [|b s]; simpl.
    + split; [done|]. by intros (rest & [=]).
    + destruct (Ascii.ascii_dec a b) as [->|Hne].
      * rewrite IH. split; intros (rest & Hr); exists rest.
        -- by rewrite Hr.
        -- by injection Hr.
      * split; [done|]. intros (rest & [=]). congruence.
Qed.

Lemma is_sync_spec c : is_sync c = true ↔ has_sync_prefix (name c).
Proof.
  unfold is_sync, startswith, has_sync_prefix. rewrite existsb_exists. split.
  - intros (p & Hin%list_elem_of_In & (rest & Hr)%prefix_spec). eauto.
  - intros (p & rest & Hin & Hr). exists p. split; [by apply list_elem_of_In|].
    apply prefix_spec. eauto.
Qed.

Lemma is_sync_prefixed c k rest : name c = PREFIXES k +:+ rest → is_sync c = true.
Proof.
  intros Hn. apply is_sync_spec. exists (PREFIXES k), rest. split; [|done].
  unfold ALL_PREFIXES. destruct k; set_solver.
Qed.

(** ** Common bone names *)

#[local] Instance string_le_total : Total string_le.
Proof. intros a b. apply String.leb_total. Qed.

Lemma common_bone_names_NoDup (a1 a2 : gmap string (list Constraint)) :
  NoDup (get_common_bone_names a1 a2).
Proof.
  unfold get_common_bone_names, sorted.
  rewrite merge_sort_Permutation. apply NoDup_elements.
Qed.

Lemma elem_of_common_bone_names (a1 a2 : gmap string (list Constraint)) n :
  n ∈ get_common_bone_names a1 a2 ↔ is_Some (a1 !! n) ∧ is_Some (a2 !! n).
Proof.
  unfold get_common_bone_names, sorted.
  by rewrite merge_sort_Permutation, elem_of_elements, elem_of_intersection,
    !elem_of_dom.
Qed.

(** C4.  [get_common_bone_names] returns the intersection of the two sets
    of pose-bone names: a name is in the returned list if and only if it is
    the name of a pose bone of both armatures.  The list has no duplicates
    and is sorted. *)
Theorem common_bone_names_is_intersection
    (armature1 armature2 : gmap string (list Constraint)) :
  (∀ n, n ∈ get_common_bone_names armature1 armature2 ↔
        is_Some (armature1 !! n) ∧ is_Some (armature2 !! n)) ∧
  NoDup (get_common_bone_names armature1 armature2) ∧
  Sorted string_le (get_common_bone_names armature1 armature2).
Proof.
  split_and!.
  - intros n. apply elem_of_common_bone_names.
  - apply common_bone_names_NoDup.
  - apply Sorted_merge_sort, _.
Qed.

(** ** Removal of sync constraints *)

Lemma constraints_remove_fresh c kept rest :
  c ∉ kept → constraints_remove c (kept ++ c :: rest) = kept ++ rest.
Proof.
  induction kept as [|a kept IH]; intros Hnin; simpl.
  - by rewrite decide_True.
  - rewrite decide_False by set_solver. f_equal. apply IH. set_solver.
Qed.

(** The invariant of the removal loop: the stack consists of the
    constraints already seen and kept, followed by the part of the copy
    that is still to be visited. *)
Lemma removal_loop_invariant kept todo :
  Forall (λ c, is_sync c = false) kept →
  foldl (λ cur c, if is_sync c then constraints_remove c cur else cur)
        (kept ++ todo) todo =
  kept ++ List.filter not_sync todo.
Proof.
  revert kept. induction todo as [|c todo IH]; intros kept Hkept; simpl.
  - done.
  - unfold not_sync at 1. destruct (is_sync c) eqn:Hc; simpl.
    + rewrite constraints_remove_fresh; [by apply IH|].
      intros Hin. rewrite Forall_forall in Hkept. specialize (Hkept _ Hin).
      congruence.
    + rewrite (cons_middle c kept todo), (assoc_L (++)).
      rewrite IH; [by rewrite <- (assoc_L (++))|].
      apply Forall_app. split; [done|]. by constructor.
Qed.

Lemma _remove_existing_constraints_filter constraints :
  _remove_existing_constraints constraints = List.filter not_sync constraints.
Proof. apply (removal_loop_invariant [] constraints). constructor. Qed.

Lemma remove_constraints_lookup (target_bones : gmap string (list Constraint)) n :
  remove_constraints target_bones !! n =
  List.filter not_sync <$> target_bones !! n.
Proof.
  unfold remove_constraints. rewrite lookup_fmap.
  destruct (target_bones !! n); simpl; [|done].
  by rewrite _remove_existing_constraints_filter.
Qed.

(** ** The constraints added by [apply_constraints] *)

Lemma substring_app_prefix (p s : string) (k : nat) :
  String.length p ≤ k →
  String.substring 0 k (p +:+ s) = p +:+ String.substring 0 (k - String.length p) s.
Proof.
  revert k. induction p as [|a p IH]; intros k Hk; simpl.
  - by rewrite Nat.sub_0_r.
  - destruct k as [|k]; simpl in *; [lia|]. rewrite IH by lia. done.
Qed.

Lemma prefix_substring (s : string) (k : nat) :
  String.prefix (String.substring 0 k s) s = true.
Proof.
  revert k. induction s as [|a s IH]; intros [|k]; simpl; try done.
  destruct (Ascii.ascii_dec a a); [apply IH|done].
Qed.

Section Apply.
Context `{HostOps}.

Lemma stored_sync_name k n : sync_named (PREFIXES k) n
  (sync_constraint "" (store_name (PREFIXES k +:+ n)) 0 "" "").
Proof.
  unfold sync_named. simpl.
  destruct (store_name_cut (PREFIXES k +:+ n)) as (j & Hj & Hcut).
  split_and!.
  - rewrite Hcut, substring_app_prefix by (destruct k; simpl; lia). eauto.
  - rewrite Hcut. apply prefix_substring.
  - apply store_name_short.
Qed.

Lemma stored_name_prefixed k n :
  ∃ rest, store_name (PREFIXES k +:+ n) = PREFIXES k +:+ rest.
Proof. apply (stored_sync_name k n). Qed.

Lemma alter_last {A} (f : A → A) (l : list A) (x : A) :
  alter f (length l) (l ++ [x]) = l ++ [f x].
Proof. induction l as [|a l IH]; [done|]. simpl. f_equal. exact IH. Qed.

Lemma _new_constraint_eq owner bone constraints ty nm source sub :
  _new_constraint owner bone constraints ty nm source sub =
  (constraints ++
     [ {| ctype := ty; name := store_name nm; target := Some source;
          subtarget := store_subtarget owner bone (Some source) sub;
          target_space := "WORLD"; owner_space := "WORLD";
          use_x := use_x (new_constraint_defaults ty);
          use_y := use_y (new_constraint_defaults ty);
          use_z := use_z (new_constraint_defaults ty);
          mix_mode := mix_mode (new_constraint_defaults ty) |} ],
   length constraints).
Proof. unfold _new_constraint, constraints_new. by rewrite alter_last. Qed.

Lemma sync_bone_eq source target n constraints :
  sync_bone source target n constraints =
  List.filter not_sync constraints ++ new_sync_constraints source target n.
Proof.
  unfold sync_bone, new_sync_constraints.
  rewrite _remove_existing_constraints_filter.
  rewrite _new_constraint_eq. cbv beta iota zeta. rewrite !alter_last.
  rewrite _new_constraint_eq. cbv beta iota zeta. rewrite !alter_last.
  rewrite _new_constraint_eq. cbv beta iota zeta. rewrite !alter_last.
  rewrite <- !(assoc_L (++)). done.
Qed.

Lemma filter_sync_not_sync constraints :
  List.filter is_sync (List.filter not_sync constraints) = [].
Proof.
  induction constraints as [|c cs IH]; simpl; [done|].
  unfold not_sync at 1. destruct (is_sync c) eqn:Hc; simpl; [done|].
  by rewrite Hc.
Qed.

Lemma filter_all_true {A} (f : A → bool) (l : list A) :
  Forall (λ x, f x = true) l → List.filter f l = l.
Proof. induction 1 as [|x l Hx _ IH]; simpl; [done|]. by rewrite Hx, IH. Qed.

Lemma filter_all_false {A} (f : A → bool) (l : list A) :
  Forall (λ x, f x = false) l → List.filter f l = [].
Proof. induction 1 as [|x l Hx _ IH]; simpl; [done|]. by rewrite Hx. Qed.

Lemma is_sync_sync_constraint ty k n source sub m :
  is_sync (sync_constraint ty (store_name (PREFIXES k +:+ n)) source sub m) = true.
Proof.
  destruct (stored_name_prefixed k n) as [rest Hrest].
  by apply (is_sync_prefixed _ k rest).
Qed.

Lemma new_sync_constraints_sync source target n :
  Forall (λ c, is_sync c = true) (new_sync_constraints source target n).
Proof.
  unfold new_sync_constraints. repeat constructor; apply is_sync_sync_constraint.
Qed.

Lemma filter_sync_after_sync constraints source target n :
  List.filter is_sync
    (List.filter not_sync constraints ++ new_sync_constraints source target n) =
  new_sync_constraints source target n.
Proof.
  rewrite List.filter_app, filter_sync_not_sync.
  apply filter_all_true, new_sync_constraints_sync.
Qed.

Lemma filter_not_sync_idemp constraints :
  List.filter not_sync (List.filter not_sync constraints) =
  List.filter not_sync constraints.
Proof.
  induction constraints as [|c cs IH]; simpl; [done|].
  destruct (not_sync c) eqn:Hc; simpl; [|done]. by rewrite Hc, IH.
Qed.

Lemma filter_not_sync_sync_bone source target n constraints :
  List.filter not_sync (sync_bone source target n constraints) =
  List.filter not_sync constraints.
Proof.
  rewrite sync_bone_eq, List.filter_app, filter_not_sync_idemp.
  rewrite <- (app_nil_r (List.filter not_sync constraints)) at 2. f_equal.
  apply filter_all_false.
  eapply Forall_impl; [apply new_sync_constraints_sync|].
  intros c Hc. unfold not_sync. by rewrite Hc.
Qed.

Lemma apply_step_lookup source target (bones : gmap string (list Constraint)) a n :
  match bones !! a with
  | None => bones
  | Some constraints => <[a := sync_bone source target a constraints]> bones
  end !! n =
  if decide (n = a) then sync_bone source target a <$> bones !! a else bones !! n.
Proof.
  destruct (decide (n = a)) as [->|Hne].
  - destruct (bones !! a) eqn:Ha; simpl; [by rewrite lookup_insert_eq|done].
  - destruct (bones !! a); [by rewrite lookup_insert_ne|done].
Qed.

Lemma apply_constraints_lookup source target common_bones
    (target_bones : gmap string (list Constraint)) n :
  NoDup common_bones →
  apply_constraints source target target_bones common_bones !! n =
  if decide (n ∈ common_bones)
  then sync_bone source target n <$> target_bones !! n
  else target_bones !! n.
Proof.
  unfold apply_constraints. revert target_bones.
  induction common_bones as [|a l IH]; intros bones Hnd; cbn [foldl].
  - rewrite decide_False; [done|]. apply not_elem_of_nil.
  - apply NoDup_cons in Hnd as [Ha Hnd]. rewrite (IH _ Hnd), !apply_step_lookup.
    destruct (decide (n = a)) as [->|Hne].
    + rewrite decide_False by done. rewrite decide_True by (by left). done.
    + destruct (decide (n ∈ l)).
      * rewrite decide_True by (by right). done.
      * rewrite decide_False; [done|]. by intros [?|?]%elem_of_cons.
Qed.

Lemma apply_constraints_keeps_others source target common_bones
    (target_bones : gmap string (list Constraint)) n :
  List.filter not_sync
    <$> apply_constraints source target target_bones common_bones !! n =
  List.filter not_sync <$> target_bones !! n.
Proof.
  unfold apply_constraints. revert target_bones.
  induction common_bones as [|a l IH]; intros bones; simpl; [done|].
  rewrite IH, apply_step_lookup. destruct (decide (n = a)) as [->|Hne]; [|done].
  destruct (bones !! a); simpl; [|done]. by rewrite filter_not_sync_sync_bone.
Qed.

Lemma new_sync_constraints_aim source target n c :
  c ∈ new_sync_constraints source target n → aims_at source target n c.
Proof.
  unfold new_sync_constraints. intros Hc.
  assert (aims_at source target n
            (sync_constraint "" "" source
               (store_subtarget target n (Some source) n) "")) as Haim.
  { unfold aims_at. simpl. split_and!; [done..| |].
    - intros Hne. apply store_subtarget_other. left. congruence.
    - intros ->. apply store_subtarget_self. }
  repeat (apply elem_of_cons in Hc as [->|Hc]; [exact Haim|]).
  by apply elem_of_nil in Hc.
Qed.

End Apply.

(** C7.  Removing the sync constraints of a pose bone deletes exactly the
    constraints whose name starts with one of the three prefixes: what
    remains is the stack without them, every other constraint unchanged and
    in its place.  This holds for the removal step, for [remove_constraints]
    on every bone of the target, and for the Remove Transform Sync operator,
    which changes no other armature; the removal inside
    [apply_constraints] leaves the other constraints of every bone as they
    were. *)
Theorem sync_removal_is_exact `{HostOps} :
  (∀ c, not_sync c = true ↔ ¬ has_sync_prefix (name c)) ∧
  (∀ constraints,
     _remove_existing_constraints constraints = List.filter not_sync constraints) ∧
  (∀ target_bones n,
     remove_constraints target_bones !! n =
     List.filter not_sync <$> target_bones !! n) ∧
  (∀ scn r scn' target,
     RemoveSyncTransform_execute scn = (FINISHED, r, scn') →
     nh_sync_target scn = Some target →
     (∀ n, pose_bones scn' target !! n =
           List.filter not_sync <$> pose_bones scn target !! n) ∧
     (∀ a, a ≠ target → pose_bones scn' a = pose_bones scn a)) ∧
  (∀ source target target_bones common_bones n,
     List.filter not_sync
       <$> apply_constraints source target target_bones common_bones !! n =
     List.filter not_sync <$> target_bones !! n).
Proof.
  split_and!.
  - intros c. unfold not_sync. rewrite <- is_sync_spec.
    destruct (is_sync c); simpl; split; done.
  - apply _remove_existing_constraints_filter.
  - apply remove_constraints_lookup.
  - intros scn r scn' target Hex Ht. unfold RemoveSyncTransform_execute in Hex.
    rewrite Ht in Hex. injection Hex as <- <-. simpl. split.
    + intros n. rewrite fn_lookup_insert. apply remove_constraints_lookup.
    + intros a Hne. by rewrite fn_lookup_insert_ne.
  - intros. apply apply_constraints_keeps_others.
Qed.

(** C3, as the code and the host have it.  When Apply Transform Sync
    finishes, every bone name common to source and target has, on the target
    pose bone of that name, exactly three sync constraints: a copy-rotation,
    a copy-location and a copy-scale constraint, named with the ROT, LOC and
    SCL prefix followed by the bone name (cut by the host where the name
    does not fit), each pointing at the source armature with target space
    and owner space WORLD.  The subtarget is the bone name when source and
    target are different armatures; when they are the same armature the
    host leaves it empty.  The three follow the constraints the bone had
    before, from which the sync constraints have been removed. *)
Theorem apply_leaves_three_sync_constraints `{HostOps} (scn scn' : Scene)
    (r : option Report) :
  ApplySyncTransform_execute scn = (FINISHED, r, scn') →
  ∃ source target,
    nh_sync_source scn = Some source ∧ nh_sync_target scn = Some target ∧
    ∀ n before,
      is_Some (pose_bones scn source !! n) →
      pose_bones scn target !! n = Some before →
      ∃ rot loc scl,
        pose_bones scn' target !! n =
          Some (List.filter not_sync before ++ [rot; loc; scl]) ∧
        List.filter is_sync (List.filter not_sync before ++ [rot; loc; scl]) =
          [rot; loc; scl] ∧
        (ctype rot = "COPY_ROTATION" ∧ sync_named "NH_SYNC_ROT_" n rot ∧
         aims_at source target n rot) ∧
        (ctype loc = "COPY_LOCATION" ∧ sync_named "NH_SYNC_LOC_" n loc ∧
         aims_at source target n loc) ∧
        (ctype scl = "COPY_SCALE" ∧ sync_named "NH_SYNC_SCL_" n scl ∧
         aims_at source target n scl).
Proof.
  unfold ApplySyncTransform_execute.
  destruct (nh_sync_source scn) as [source|]; [|by destruct (nh_sync_target scn)].
  destruct (nh_sync_target scn) as [target|]; [|done].
  intros [= <- <-]. exists source, target. split_and!; [done..|].
  intros n before Hsrc Htgt. simpl. rewrite fn_lookup_insert.
  rewrite apply_constraints_lookup by apply common_bone_names_NoDup.
  rewrite decide_True by (apply elem_of_common_bone_names; rewrite Htgt; eauto).
  rewrite Htgt. simpl. rewrite sync_bone_eq.
  pose proof (new_sync_constraints_aim source target n) as Haim.
  pose proof (filter_sync_after_sync before source target n) as Hfilter.
  unfold new_sync_constraints in *.
  eexists _, _, _. split; [reflexivity|]. split; [exact Hfilter|].
  split_and!; try done;
    try (apply Haim; rewrite !elem_of_cons; tauto).
  - apply (stored_sync_name ROT n).
  - apply (stored_sync_name LOC n).
  - apply (stored_sync_name SCL n).
Qed.

Lemma sync_removal_is_exact_witness :
  pose_bones (RemoveSyncTransform_execute example_scene).2 2 !! "hip" =
    Some [ik] ∧
  pose_bones (RemoveSyncTransform_execute example_scene).2 1 =
    pose_bones example_scene 1.
Proof.
  destruct (sync_removal_is_exact (H:=example_host)) as (_ & _ & _ & Hop & _).
  destruct (Hop example_scene (Some ("INFO", "Removed sync constraints"))
              (RemoveSyncTransform_execute example_scene).2 2
              eq_refl eq_refl) as [Hbones Hothers].
  split; [|by apply Hothers].
  rewrite Hbones. reflexivity.
Defined.

Lemma apply_leaves_three_sync_constraints_witness :
  ∃ rot loc scl,
    pose_bones (ApplySyncTransform_execute (H:=example_host) example_scene).2 2 !! "hip" =
      Some ([ik] ++ [rot; loc; scl]) ∧
    List.filter is_sync ([ik] ++ [rot; loc; scl]) = [rot; loc; scl] ∧
    name rot = "NH_SYNC_ROT_hip" ∧ name loc = "NH_SYNC_LOC_hip" ∧
    name scl = "NH_SYNC_SCL_hip" ∧
    subtarget rot = "hip" ∧ subtarget loc = "hip" ∧ subtarget scl = "hip".
Proof.
  destruct (apply_leaves_three_sync_constraints (H:=example_host) example_scene
              (ApplySyncTransform_execute (H:=example_host) example_scene).2
              (Some ("INFO", "Applied constraints to 1 bones")) eq_refl)
    as (source & target & [= <-] & [= <-] & Hall).
  destruct (Hall "hip" [stale_sync; ik])
    as (rot & loc & scl & Hb & Hf & (_ & Hrn & Hra) & (_ & Hln & Hla) & (_ & Hsn & Hsa));
    [by eexists|reflexivity|].
  exists rot, loc, scl.
  split_and!; [exact Hb|exact Hf|
    apply Hrn; simpl; lia|apply Hln; simpl; lia|apply Hsn; simpl; lia|
    apply Hra; discriminate|apply Hla; discriminate|apply Hsa; discriminate].
Defined.

(** On the armature that is both source and target, the constraints Apply
    Transform Sync leaves on the bone [hip] do not name the bone as
    subtarget: the host has cleared it, and what C3 states of the stack does
    not hold. *)
Lemma self_sync_has_no_subtarget :
  (ApplySyncTransform_execute (H:=example_host) self_scene).1.1 = FINISHED ∧
  is_Some (pose_bones self_scene 1 !! "hip") ∧
  ∃ constraints,
    pose_bones (ApplySyncTransform_execute (H:=example_host) self_scene).2 1 !! "hip" =
      Some constraints ∧
    (¬ three_sync_constraints_at 1 "hip" constraints).
Proof.
  split; [reflexivity|]. split; [by eexists|].
  eexists. split; [by vm_compute|].
  intros (rot & loc & scl & Hf & (_ & _ & Hrot) & _).
  vm_compute in Hf. injection Hf as <- _ _.
  destruct Hrot as (_ & Hsub & _). discriminate Hsub.
Qed.

End SyncTransformSpec.

(* ================================================================== *)
(** * Validation and error exits of the operators *)
(* ================================================================== *)

Module OperatorsSpec.

(** ** What the validation of Select Unused Bones checks *)

Lemma scan_modifier_lookup st m k :
  is_Some ((BoneCleaner.scan_modifier st m).2 !! k) ↔
  is_Some (st.2 !! k) ∨ BoneCleaner.armature_modifier_named k m.
Proof.
  unfold BoneCleaner.scan_modifier, BoneCleaner.armature_modifier_named.
  destruct (String.eqb_spec (BoneCleaner.mod_type m) "ARMATURE") as [Ht|Ht].
  - destruct (BoneCleaner.mod_object m) as [o|]; simpl.
    + destruct (decide (BoneCleaner.mod_name m = k)) as [->|Hne].
      * rewrite lookup_insert_eq. split; eauto.
      * rewrite lookup_insert_ne by done. split; [auto|]. by intros [?|(_ & _ & ?)].
    + split; [auto|]. by intros [?|(_ & []%is_Some_None & _)].
  - split; [auto|]. by intros [?|(? & _)].
Qed.

Lemma scan_modifiers_lookup mods st k :
  is_Some ((foldl BoneCleaner.scan_modifier st mods).2 !! k) ↔
  is_Some (st.2 !! k) ∨ ∃ m, m ∈ mods ∧ BoneCleaner.armature_modifier_named k m.
Proof.
  revert st. induction mods as [|a mods IH]; intros st; simpl.
  - split; [auto|]. by intros [?|(? & ?%elem_of_nil & _)].
  - rewrite IH, scan_modifier_lookup. setoid_rewrite elem_of_cons. split.
    + intros [[?|?]|(m & ? & ?)]; eauto.
    + intros [?|(m & [->|?] & ?)]; eauto.
Qed.

Lemma scan_meshes_lookup meshes st k :
  is_Some ((foldl BoneCleaner.scan_mesh st meshes).2 !! k) ↔
  is_Some (st.2 !! k) ∨ BoneCleaner.present_on_some k meshes.
Proof.
  unfold BoneCleaner.present_on_some. revert st.
  induction meshes as [|a meshes IH]; intros st; simpl.
  - split; [auto|]. by intros [?|(? & ? & ?%elem_of_nil & _)].
  - rewrite IH. unfold BoneCleaner.scan_mesh at 1. rewrite scan_modifiers_lookup.
    setoid_rewrite elem_of_cons. split.
    + intros [[?|(m & ? & ?)]|(mesh & m & ? & ? & ?)]; eauto 8.
    + intros [?|(mesh & m & [->|?] & ? & ?)]; eauto 8.
Qed.

Lemma mod_map_lookup meshes k :
  is_Some ((BoneCleaner.find_common_armature_modifier meshes).2 !! k) ↔
  BoneCleaner.present_on_some k meshes.
Proof.
  unfold BoneCleaner.find_common_armature_modifier.
  pose proof (scan_meshes_lookup meshes ([], ∅) k) as Hs.
  destruct (foldl BoneCleaner.scan_mesh ([], ∅) meshes) as [cnt mm]; simpl in *.
  rewrite Hs, lookup_empty. split; [|auto]. by intros [[]%is_Some_None|?].
Qed.

Section Operators.
Context `{HB : BoneCleaner.HostOps} `{HS : SyncTransform.HostOps}.

(** The condition under which Select Unused Bones is cancelled: no mesh is
    selected, or no selected mesh has an armature modifier of the chosen
    name. *)
Lemma SelectUnusedBones_cancelled_iff fuel ctx :
  (∃ r ctx', BoneCleaner.SelectUnusedBones_execute fuel ctx =
             Some (BoneCleaner.Returned (CANCELLED, r, ctx'))) ↔
  BoneCleaner.selected_meshes ctx = [] ∨
  ¬ BoneCleaner.present_on_some
      (BoneCleaner.modifier_name (BoneCleaner.bone_cleaner_props ctx))
      (BoneCleaner.selected_meshes ctx).
Proof.
  pose proof (BoneCleanerSpec.SelectUnusedBones_execute_cases fuel ctx) as Hc.
  pose proof (mod_map_lookup (BoneCleaner.selected_meshes ctx)
    (BoneCleaner.modifier_name (BoneCleaner.bone_cleaner_props ctx))) as Hm.
  fold (BoneCleaner.chosen_armature ctx) in Hm.
  destruct (BoneCleaner.selected_meshes ctx) as [|m ms].
  { rewrite Hc. split; eauto. }
  destruct (BoneCleaner.chosen_armature ctx) as [arm|]; rewrite Hc.
  - split.
    + intros (r & ctx' & He).
      destruct (BoneCleaner.final_used_bones fuel ctx arm); simpl in He; [|done].
      injection He as He.
      by apply BoneCleanerSpec.switch_and_select_returned in He as [? _].
    + intros [?|Hn]; [done|]. destruct Hn. apply Hm. eauto.
  - split; [|eauto]. intros _. right. intros Hp%Hm. by apply is_Some_None in Hp.
Qed.

Lemma DeleteSelectedBones_cancelled_iff ctx :
  (BoneCleaner.DeleteSelectedBones_execute ctx).1.1 = CANCELLED ↔
  BoneCleaner.mode ctx ≠ "EDIT_ARMATURE".
Proof.
  unfold BoneCleaner.DeleteSelectedBones_execute.
  destruct (String.eqb_spec (BoneCleaner.mode ctx) "EDIT_ARMATURE"); simpl;
    split; done.
Qed.

Lemma ApplySyncTransform_cancelled_iff scn :
  (SyncTransform.ApplySyncTransform_execute scn).1.1 = CANCELLED ↔
  SyncTransform.nh_sync_source scn = None ∨ SyncTransform.nh_sync_target scn = None.
Proof.
  unfold SyncTransform.ApplySyncTransform_execute.
  destruct (SyncTransform.nh_sync_source scn), (SyncTransform.nh_sync_target scn);
    simpl; (split; [try done; auto|try done; by intros [?|?]]).
Qed.

Lemma select_validation_fails_cancels fuel ctx :
  BoneCleaner.modifier_name_admissible ctx →
  Forall BoneCleaner.modifier_names_well_formed (BoneCleaner.selected_meshes ctx) →
  BoneCleaner.select_validation_fails ctx →
  ∃ msg, BoneCleaner.SelectUnusedBones_execute fuel ctx =
         Some (BoneCleaner.Returned (CANCELLED, Some ("ERROR", msg), ctx)).
Proof.
  intros Hadm Hwf Hfails.
  pose proof (BoneCleanerSpec.SelectUnusedBones_execute_cases fuel ctx) as Hc.
  pose proof (mod_map_lookup (BoneCleaner.selected_meshes ctx)
    (BoneCleaner.modifier_name (BoneCleaner.bone_cleaner_props ctx))) as Hm.
  fold (BoneCleaner.chosen_armature ctx) in Hm.
  pose proof (BoneCleanerSpec.admissible_choice_is_common ctx Hadm Hwf) as Hcommon.
  unfold BoneCleaner.select_validation_fails in Hfails.
  destruct (BoneCleaner.selected_meshes ctx) as [|m ms]; [eauto|].
  destruct (BoneCleaner.chosen_armature ctx) as [arm|]; [|eauto].
  destruct Hfails as [?|Hnot]; [done|]. destruct Hnot.
  apply Hcommon, Hm. eauto.
Qed.

Lemma select_cancelled_validation_fails fuel ctx r ctx' :
  BoneCleaner.SelectUnusedBones_execute fuel ctx =
    Some (BoneCleaner.Returned (CANCELLED, r, ctx')) →
  BoneCleaner.select_validation_fails ctx.
Proof.
  intros Hex.
  destruct (proj1 (SelectUnusedBones_cancelled_iff fuel ctx)) as [Hnil|Hnone];
    [eauto|by left|].
  unfold BoneCleaner.select_validation_fails.
  destruct (BoneCleaner.selected_meshes ctx) as [|m ms]; [by left|right].
  intros Hall. apply Hnone. destruct (Hall m) as (md & ? & ?); [left|].
  exists m, md. split_and!; [left|done..].
Qed.

(** When the validation passes, the modifier map resolves the chosen name
    to an armature. *)
Lemma select_validation_passes_chosen ctx :
  ¬ BoneCleaner.select_validation_fails ctx →
  BoneCleaner.selected_meshes ctx ≠ [] ∧ is_Some (BoneCleaner.chosen_armature ctx).
Proof.
  intros Hpass. unfold BoneCleaner.select_validation_fails in Hpass.
  assert (BoneCleaner.selected_meshes ctx ≠ []) as Hne by tauto.
  split; [done|].
  destruct (BoneCleaner.chosen_armature ctx) as [arm|] eqn:Harm; [eauto|].
  destruct Hpass. right. intros Hall.
  assert (is_Some (BoneCleaner.chosen_armature ctx)) as Hsome;
    [|rewrite Harm in Hsome; by apply is_Some_None in Hsome].
  apply mod_map_lookup.
  destruct (BoneCleaner.selected_meshes ctx) as [|m ms]; [done|].
  destruct (Hall m) as (md & ? & ?); [left|]. exists m, md. split_and!; [left|done..].
Qed.

(** How a run on which the validation passes ends, once the walks have
    enough iterations. *)
Lemma select_validation_passes_outcome ctx arm fuel :
  BoneCleaner.selected_meshes ctx ≠ [] →
  BoneCleaner.chosen_armature ctx = Some arm →
  BoneCleaner.acyclic (BoneCleaner.bones (BoneCleaner.armature_data ctx arm)) →
  size (BoneCleaner.bones (BoneCleaner.armature_data ctx arm)) < fuel →
  match BoneCleaner.entered_edit_mode arm ctx with
  | Some _ =>
      ∃ ctx', BoneCleaner.SelectUnusedBones_execute fuel ctx =
              Some (BoneCleaner.Returned (FINISHED, None, ctx'))
  | None =>
      ∃ ctx', BoneCleaner.SelectUnusedBones_execute fuel ctx =
              Some (BoneCleaner.Raised ctx')
  end.
Proof.
  intros Hne Harm Hacyc Hfuel.
  pose proof (BoneCleanerSpec.SelectUnusedBones_execute_cases fuel ctx) as Hc.
  destruct (BoneCleaner.selected_meshes ctx); [done|]. rewrite Harm in Hc.
  destruct (BoneCleanerSpec.final_used_bones_terminates fuel ctx arm Hacyc Hfuel)
    as [used Hused].
  rewrite Hc, Hused. simpl.
  destruct (BoneCleaner.entered_edit_mode arm ctx) as [entered|] eqn:He.
  - rewrite (BoneCleanerSpec.switch_and_select_entered _ _ _ _ He). eauto.
  - destruct (BoneCleanerSpec.switch_and_select_refused arm used ctx He) as [c ->].
    eauto.
Qed.

(** C5.  Each operator is cancelled, with a report, exactly when its
    validation fails: Select Unused Bones when no mesh is selected or the
    chosen modifier is not an armature modifier of every selected mesh,
    Delete Selected Bones when the context is not the Edit Mode of an
    armature, Apply Transform Sync when source or target is unset.  When the
    validation passes, Delete Selected Bones and Apply Transform Sync
    finish.  Select Unused Bones, when it returns, finishes; with parent
    links that have no cycle it does return FINISHED if the host accepts its
    two mode switches, and ends with the error of the refused switch if
    not.  For Select Unused Bones the chosen name is a value its enum
    property can hold for the selection, and the modifier names of every
    selected mesh are distinct and not empty. *)
Theorem operators_cancel_iff_validation_fails :
  (∀ ctx,
     BoneCleaner.modifier_name_admissible ctx →
     Forall BoneCleaner.modifier_names_well_formed (BoneCleaner.selected_meshes ctx) →
     (BoneCleaner.select_validation_fails ctx →
      ∀ fuel, ∃ msg,
        BoneCleaner.SelectUnusedBones_execute fuel ctx =
        Some (BoneCleaner.Returned (CANCELLED, Some ("ERROR", msg), ctx))) ∧
     (∀ fuel st r ctx',
        BoneCleaner.SelectUnusedBones_execute fuel ctx =
          Some (BoneCleaner.Returned (st, r, ctx')) →
        (st = CANCELLED ↔ BoneCleaner.select_validation_fails ctx) ∧
        (st = FINISHED ↔ ¬ BoneCleaner.select_validation_fails ctx)) ∧
     (¬ BoneCleaner.select_validation_fails ctx →
      ∃ arm,
        BoneCleaner.chosen_armature ctx = Some arm ∧
        (BoneCleaner.acyclic (BoneCleaner.bones (BoneCleaner.armature_data ctx arm)) →
         ∃ fuel0, ∀ fuel, fuel0 ≤ fuel →
           match BoneCleaner.entered_edit_mode arm ctx with
           | Some _ =>
               ∃ ctx', BoneCleaner.SelectUnusedBones_execute fuel ctx =
                       Some (BoneCleaner.Returned (FINISHED, None, ctx'))
           | None =>
               ∃ ctx', BoneCleaner.SelectUnusedBones_execute fuel ctx =
                       Some (BoneCleaner.Raised ctx')
           end))) ∧
  (∀ ctx,
     ((BoneCleaner.DeleteSelectedBones_execute ctx).1.1 = CANCELLED ↔
      BoneCleaner.mode ctx ≠ "EDIT_ARMATURE") ∧
     ((BoneCleaner.DeleteSelectedBones_execute ctx).1.1 = FINISHED ↔
      BoneCleaner.mode ctx = "EDIT_ARMATURE") ∧
     ((BoneCleaner.DeleteSelectedBones_execute ctx).1.1 = CANCELLED →
      is_Some (BoneCleaner.DeleteSelectedBones_execute ctx).1.2)) ∧
  (∀ scn,
     ((SyncTransform.ApplySyncTransform_execute scn).1.1 = CANCELLED ↔
      SyncTransform.nh_sync_source scn = None ∨
      SyncTransform.nh_sync_target scn = None) ∧
     ((SyncTransform.ApplySyncTransform_execute scn).1.1 = FINISHED ↔
      is_Some (SyncTransform.nh_sync_source scn) ∧
      is_Some (SyncTransform.nh_sync_target scn)) ∧
     ((SyncTransform.ApplySyncTransform_execute scn).1.1 = CANCELLED →
      is_Some (SyncTransform.ApplySyncTransform_execute scn).1.2)).
Proof.
  split_and!.
  - intros ctx Hadm Hwf.
    pose proof (λ fuel, select_validation_fails_cancels fuel ctx Hadm Hwf) as Hcancel.
    split_and!.
    + intros Hfails fuel. by apply Hcancel.
    + intros fuel st r ctx' Hex.
      assert (st = CANCELLED ↔ BoneCleaner.select_validation_fails ctx) as Hiff.
      { split.
        - intros ->. by eapply select_cancelled_validation_fails.
        - intros (msg & Hmsg)%(Hcancel fuel). congruence. }
      split; [done|]. rewrite <- Hiff. destruct st; split; congruence.
    + intros [Hne [arm Harm]]%select_validation_passes_chosen.
      exists arm. split; [done|]. intros Hacyc.
      exists (S (size (BoneCleaner.bones (BoneCleaner.armature_data ctx arm)))).
      intros fuel Hfuel.
      apply select_validation_passes_outcome; [done..|lia].
  - intros ctx. unfold BoneCleaner.DeleteSelectedBones_execute.
    destruct (String.eqb_spec (BoneCleaner.mode ctx) "EDIT_ARMATURE"); simpl;
      split_and!; try split; try done; eauto.
  - intros scn. unfold SyncTransform.ApplySyncTransform_execute.
    destruct (SyncTransform.nh_sync_source scn), (SyncTransform.nh_sync_target scn);
      simpl; split_and!; try split; try done; eauto;
      try (by intros [?|?]); try (by intros [[]%is_Some_None ?]);
      try (by intros [? []%is_Some_None]).
Qed.

(** C10.  An operator that returns CANCELLED leaves the scene as it found
    it: the checks come before the first write, and the error exits return
    the context they were given. *)
Theorem cancelled_leaves_scene_unchanged :
  (∀ fuel ctx r ctx',
     BoneCleaner.SelectUnusedBones_execute fuel ctx =
       Some (BoneCleaner.Returned (CANCELLED, r, ctx')) →
     ctx' = ctx) ∧
  (∀ ctx r ctx',
     BoneCleaner.DeleteSelectedBones_execute ctx = (CANCELLED, r, ctx') →
     ctx' = ctx) ∧
  (∀ ctx r ctx',
     BoneCleaner.DeleteUnusedVertexGroups_execute ctx = (CANCELLED, r, ctx') →
     ctx' = ctx) ∧
  (∀ scn r scn',
     SyncTransform.ApplySyncTransform_execute scn = (CANCELLED, r, scn') →
     scn' = scn) ∧
  (∀ scn r scn',
     SyncTransform.RemoveSyncTransform_execute scn = (CANCELLED, r, scn') →
     scn' = scn).
Proof.
  split_and!.
  - intros fuel ctx r ctx'.
    pose proof (BoneCleanerSpec.SelectUnusedBones_execute_cases fuel ctx) as Hc.
    destruct (BoneCleaner.selected_meshes ctx); [rewrite Hc; congruence|].
    destruct (BoneCleaner.chosen_armature ctx) as [arm|];
      [|rewrite Hc; congruence].
    rewrite Hc. destruct (BoneCleaner.final_used_bones fuel ctx arm); simpl; [|done].
    intros [= He]. by apply BoneCleanerSpec.switch_and_select_returned in He as [? _].
  - intros ctx r ctx'. unfold BoneCleaner.DeleteSelectedBones_execute.
    destruct (negb _); congruence.
  - intros ctx r ctx'. unfold BoneCleaner.DeleteUnusedVertexGroups_execute.
    destruct (BoneCleaner.selected_meshes ctx); congruence.
  - intros scn r scn'. unfold SyncTransform.ApplySyncTransform_execute.
    destruct (SyncTransform.nh_sync_source scn), (SyncTransform.nh_sync_target scn);
      congruence.
  - intros scn r scn'. unfold SyncTransform.RemoveSyncTransform_execute.
    destruct (SyncTransform.nh_sync_target scn); congruence.
Qed.

End Operators.

Lemma example_context_admissible selection :
  selection = [BoneCleaner.body] →
  BoneCleaner.modifier_name_admissible (BoneCleaner.example_context selection) ∧
  Forall BoneCleaner.modifier_names_well_formed
    (BoneCleaner.selected_meshes (BoneCleaner.example_context selection)).
Proof.
  intros ->. split.
  - right. by apply (bool_decide_unpack _).
  - repeat constructor; by apply (bool_decide_unpack _).
Qed.

Lemma body_passes_validation ctx :
  BoneCleaner.selected_meshes ctx = [BoneCleaner.body] →
  BoneCleaner.modifier_name (BoneCleaner.bone_cleaner_props ctx) = "Armature" →
  ¬ BoneCleaner.select_validation_fails ctx.
Proof.
  intros Hm Hn [Hnil|Hnot]; [by rewrite Hm in Hnil|].
  apply Hnot. rewrite Hm, Hn. intros mesh ->%list_elem_of_singleton.
  eexists. split; [left|]. split_and!; [done|by eexists|done].
Qed.

Lemma operators_cancel_iff_validation_fails_witness :
  (∃ fuel0, ∀ fuel, fuel0 ≤ fuel →
     ∃ ctx', BoneCleaner.SelectUnusedBones_execute (H:=BoneCleaner.example_host) fuel
               (BoneCleaner.example_context [BoneCleaner.body]) =
             Some (BoneCleaner.Returned (FINISHED, None, ctx'))) ∧
  (BoneCleaner.DeleteSelectedBones_execute (H:=BoneCleaner.example_host)
     (BoneCleaner.example_context [BoneCleaner.body])).1.1 = CANCELLED ∧
  (SyncTransform.ApplySyncTransform_execute (H:=SyncTransform.example_host)
     SyncTransform.unset_scene).1.1 = CANCELLED.
Proof.
  destruct (operators_cancel_iff_validation_fails
              (HB:=BoneCleaner.example_host) (HS:=SyncTransform.example_host))
    as (Hselect & Hdelete & Happly).
  split_and!.
  - destruct (example_context_admissible [BoneCleaner.body] eq_refl) as [Hadm Hwf].
    destruct (Hselect (BoneCleaner.example_context [BoneCleaner.body]) Hadm Hwf)
      as (_ & _ & Hpass).
    destruct Hpass as (arm & Harm & Hends).
    { by apply body_passes_validation. }
    assert (arm = 1) as -> by (vm_compute in Harm; congruence).
    destruct (Hends BoneCleanerSpec.rig_bones_acyclic) as [fuel0 Hfuel].
    exists fuel0. exact Hfuel.
  - apply (Hdelete (BoneCleaner.example_context [BoneCleaner.body])). done.
  - apply (Happly SyncTransform.unset_scene). by left.
Defined.

(** The validation of Select Unused Bones can pass without the operator
    returning FINISHED: with a mesh bound to the rig selected and no active
    object, the host refuses the switch to Object Mode, and the run ends
    with that error instead of a result, on every host. *)
Lemma select_raises_without_active_object :
  BoneCleaner.modifier_name_admissible
    (BoneCleaner.unfocused_context [BoneCleaner.body]) ∧
  Forall BoneCleaner.modifier_names_well_formed
    (BoneCleaner.selected_meshes (BoneCleaner.unfocused_context [BoneCleaner.body])) ∧
  ¬ BoneCleaner.select_validation_fails
      (BoneCleaner.unfocused_context [BoneCleaner.body]) ∧
  BoneCleaner.acyclic
    (BoneCleaner.bones
       (BoneCleaner.armature_data (BoneCleaner.unfocused_context [BoneCleaner.body]) 1)) ∧
  (∀ (host : BoneCleaner.HostOps) fuel result,
     BoneCleaner.SelectUnusedBones_execute fuel
       (BoneCleaner.unfocused_context [BoneCleaner.body]) ≠
     Some (BoneCleaner.Returned result)) ∧
  BoneCleaner.SelectUnusedBones_execute (H:=BoneCleaner.example_host) 5
    (BoneCleaner.unfocused_context [BoneCleaner.body]) =
  Some (BoneCleaner.Raised (BoneCleaner.unfocused_context [BoneCleaner.body])).
Proof.
  split_and!.
  - right. by apply (bool_decide_unpack _).
  - repeat constructor; by apply (bool_decide_unpack _).
  - by apply body_passes_validation.
  - exact BoneCleanerSpec.rig_bones_acyclic.
  - intros host fuel result.
    rewrite (BoneCleanerSpec.SelectUnusedBones_execute_no_active fuel _ 1);
      [|done|done|by vm_compute].
    by destruct (BoneCleaner.final_used_bones _ _ _).
  - reflexivity.
Qed.

Lemma cancelled_leaves_scene_unchanged_witness :
  BoneCleaner.example_context [] = BoneCleaner.example_context [] ∧
  BoneCleaner.example_context [BoneCleaner.body] =
    BoneCleaner.example_context [BoneCleaner.body] ∧
  SyncTransform.unset_scene = SyncTransform.unset_scene.
Proof.
  destruct (cancelled_leaves_scene_unchanged
              (HB:=BoneCleaner.example_host) (HS:=SyncTransform.example_host))
    as (Hselect & Hdelete & Hgroups & Happly & Hremove).
  split_and!.
  - exact (Hselect 5 (BoneCleaner.example_context [])
             (Some ("ERROR", "At least one mesh must be selected."))
             (BoneCleaner.example_context []) eq_refl).
  - exact (Hdelete (BoneCleaner.example_context [BoneCleaner.body])
             (Some ("ERROR", "Must be in Edit Mode for Armature."))
             (BoneCleaner.example_context [BoneCleaner.body]) eq_refl).
  - exact (Happly SyncTransform.unset_scene
             (Some ("WARNING", "Source and Target Armature must be set"))
             SyncTransform.unset_scene eq_refl).
Defined.

(** ** The check of the modifier is the property's *)

(** On a value that the [modifier_name] property cannot hold for the
    selection, [execute] does not detect by itself that the modifier is
    missing on a mesh: with the modifier on one of two selected meshes it
    skips the other mesh and, the mode switches accepted, finishes.  Such a
    modifier is not among the items of the property. *)
Remark execute_alone_skips_mesh_without_modifier :
  ¬ BoneCleaner.present_on_all "Armature" [BoneCleaner.body; BoneCleaner.hair] ∧
  BoneCleaner.modifier_name_items
    (BoneCleaner.example_context [BoneCleaner.body; BoneCleaner.hair]) = [] ∧
  ∃ ctx',
    BoneCleaner.SelectUnusedBones_execute (H:=BoneCleaner.example_host) 5
      (BoneCleaner.example_context [BoneCleaner.body; BoneCleaner.hair]) =
    Some (BoneCleaner.Returned (FINISHED, None, ctx')).
Proof.
  split_and!.
  - intros Hall. destruct (Hall BoneCleaner.hair) as (m & Hm & _).
    + right; left.
    + by apply elem_of_nil in Hm.
  - reflexivity.
  - exists (BoneCleaner.select_unused 1 {["head"; "spine"; "root"]}
              (BoneCleaner.example_edit_context [BoneCleaner.body; BoneCleaner.hair])).
    by vm_compute.
Qed.

End OperatorsSpec.

(* ================================================================== *)
(** * Further properties of NH_SyncTransform *)
(* ================================================================== *)

Module SyncTransformProps.
Import SyncTransform SyncTransformSpec.

Lemma has_sync_constraint_filter_not_sync constraints :
  has_sync_constraint (List.filter not_sync constraints) = false.
Proof.
  unfold has_sync_constraint. induction constraints as [|c cs IH]; simpl; [done|].
  unfold not_sync at 1. destruct (is_sync c) eqn:Hc; simpl; [done|].
  by rewrite Hc.
Qed.

Lemma filter_not_sync_id constraints :
  has_sync_constraint constraints = false →
  List.filter not_sync constraints = constraints.
Proof.
  unfold has_sync_constraint. induction constraints as [|c cs IH]; simpl; [done|].
  intros [Hc Hcs]%orb_false_iff. unfold not_sync at 1. rewrite Hc. simpl.
  by rewrite IH.
Qed.

Lemma get_common_bone_names_dom (a1 a2 b1 b2 : gmap string (list Constraint)) :
  dom a1 = dom b1 → dom a2 = dom b2 →
  get_common_bone_names a1 a2 = get_common_bone_names b1 b2.
Proof. unfold get_common_bone_names. by intros -> ->. Qed.

Lemma remove_constraints_dom (bones : gmap string (list Constraint)) :
  dom (remove_constraints bones) = dom bones.
Proof. unfold remove_constraints. apply dom_fmap_L. Qed.

Lemma remove_constraints_idemp (bones : gmap string (list Constraint)) :
  remove_constraints (remove_constraints bones) = remove_constraints bones.
Proof.
  apply map_eq. intros n. rewrite !remove_constraints_lookup.
  destruct (bones !! n); simpl; [|done]. by rewrite filter_not_sync_idemp.
Qed.

Lemma remove_constraints_no_sync (bones : gmap string (list Constraint)) :
  no_sync_constraints (remove_constraints bones).
Proof.
  intros n cs. rewrite remove_constraints_lookup.
  destruct (bones !! n); simpl; [|done]. intros [= <-].
  apply has_sync_constraint_filter_not_sync.
Qed.

Lemma remove_constraints_id (bones : gmap string (list Constraint)) :
  no_sync_constraints bones → remove_constraints bones = bones.
Proof.
  intros Hno. apply map_eq. intros n. rewrite remove_constraints_lookup.
  destruct (bones !! n) as [cs|] eqn:Hn; simpl; [|done].
  by rewrite (filter_not_sync_id cs (Hno n cs Hn)).
Qed.

Section Props.
Context `{HostOps}.

Lemma apply_constraints_other source target common_bones
    (target_bones : gmap string (list Constraint)) n :
  n ∉ common_bones →
  apply_constraints source target target_bones common_bones !! n = target_bones !! n.
Proof.
  unfold apply_constraints. revert target_bones.
  induction common_bones as [|a l IH]; intros bones Hn; cbn [foldl]; [done|].
  rewrite IH by (intros ?; apply Hn; by right).
  rewrite apply_step_lookup, decide_False; [done|].
  intros ->. apply Hn. by left.
Qed.

Lemma apply_constraints_dom source target common_bones
    (target_bones : gmap string (list Constraint)) :
  dom (apply_constraints source target target_bones common_bones) = dom target_bones.
Proof.
  unfold apply_constraints. revert target_bones.
  induction common_bones as [|a l IH]; intros bones; cbn [foldl]; [done|].
  rewrite IH. destruct (bones !! a) as [cs|] eqn:Ha; [|done].
  rewrite dom_insert_L. apply (elem_of_dom_2 (D:=gset string)) in Ha. set_solver.
Qed.

Lemma remove_apply_constraints source target common_bones
    (target_bones : gmap string (list Constraint)) :
  remove_constraints (apply_constraints source target target_bones common_bones) =
  remove_constraints target_bones.
Proof.
  apply map_eq. intros n. rewrite !remove_constraints_lookup.
  apply apply_constraints_keeps_others.
Qed.

Lemma sync_bone_idemp source target n constraints :
  sync_bone source target n (sync_bone source target n constraints) =
  sync_bone source target n constraints.
Proof.
  rewrite (sync_bone_eq source target n (sync_bone source target n constraints)).
  by rewrite filter_not_sync_sync_bone, <- sync_bone_eq.
Qed.

Lemma apply_constraints_idemp source target common_bones
    (target_bones : gmap string (list Constraint)) :
  NoDup common_bones →
  apply_constraints source target
    (apply_constraints source target target_bones common_bones) common_bones =
  apply_constraints source target target_bones common_bones.
Proof.
  intros Hnd. apply map_eq. intros n.
  rewrite (apply_constraints_lookup source target common_bones
             (apply_constraints source target target_bones common_bones) n Hnd).
  case_decide as Hn; [|done].
  rewrite (apply_constraints_lookup source target common_bones target_bones n Hnd).
  rewrite decide_True by done.
  destruct (target_bones !! n); simpl; [|done]. by rewrite sync_bone_idemp.
Qed.

Lemma has_sync_constraint_sync_bone source target n constraints :
  has_sync_constraint (sync_bone source target n constraints) = true.
Proof.
  rewrite sync_bone_eq. unfold has_sync_constraint.
  rewrite existsb_app. apply orb_true_iff. right.
  pose proof (new_sync_constraints_sync source target n) as Hsync.
  unfold new_sync_constraints in *. apply Forall_cons in Hsync as [Hrot _].
  cbn [existsb]. by rewrite Hrot.
Qed.

(** The scene Apply Transform Sync leaves behind, when both armatures are
    set. *)
Lemma ApplySyncTransform_execute_set scn source target :
  nh_sync_source scn = Some source → nh_sync_target scn = Some target →
  ApplySyncTransform_execute scn =
  (FINISHED,
   Some ("INFO",
         "Applied constraints to " +:+
         pretty (length (get_common_bone_names (pose_bones scn source)
                                               (pose_bones scn target))) +:+
         " bones"),
   set_pose_bones target
     (apply_constraints source target (pose_bones scn target)
        (get_common_bone_names (pose_bones scn source) (pose_bones scn target)))
     scn).
Proof. unfold ApplySyncTransform_execute. by intros -> ->. Qed.

Lemma RemoveSyncTransform_execute_set scn target :
  nh_sync_target scn = Some target →
  RemoveSyncTransform_execute scn =
  (FINISHED, Some ("INFO", "Removed sync constraints"),
   set_pose_bones target (remove_constraints (pose_bones scn target)) scn).
Proof. unfold RemoveSyncTransform_execute. by intros ->. Qed.

(** Apply Transform Sync does not change which names are common. *)
Lemma common_after_apply scn source target :
  nh_sync_source scn = Some source → nh_sync_target scn = Some target →
  get_common_bone_names
    (pose_bones (ApplySyncTransform_execute scn).2 source)
    (pose_bones (ApplySyncTransform_execute scn).2 target) =
  get_common_bone_names (pose_bones scn source) (pose_bones scn target).
Proof.
  intros Hs Ht. rewrite (ApplySyncTransform_execute_set scn source target Hs Ht).
  simpl. apply get_common_bone_names_dom.
  - destruct (decide (target = source)) as [->|Hne].
    + rewrite fn_lookup_insert. apply apply_constraints_dom.
    + by rewrite fn_lookup_insert_ne.
  - rewrite fn_lookup_insert. apply apply_constraints_dom.
Qed.

Lemma same_scene_set_pose_bones scn scn' target bones bones' :
  nh_sync_source scn = nh_sync_source scn' →
  nh_sync_target scn = nh_sync_target scn' →
  bones = bones' →
  (∀ a, a ≠ target → pose_bones scn a = pose_bones scn' a) →
  same_scene (set_pose_bones target bones scn) (set_pose_bones target bones' scn').
Proof.
  intros Hs Ht -> Hothers. split_and!; [done..|]. intros a. simpl.
  destruct (decide (a = target)) as [->|Hne].
  - by rewrite !fn_lookup_insert.
  - rewrite !fn_lookup_insert_ne by done. by apply Hothers.
Qed.

(** X1.  Removing the sync constraints after Apply Transform Sync gives the
    scene that removing them without the apply gives: an apply adds nothing
    that a removal does not take away again, and destroys nothing a removal
    would keep. *)
Theorem remove_after_apply_is_remove (scn : Scene) :
  same_scene (RemoveSyncTransform_execute (ApplySyncTransform_execute scn).2).2
             (RemoveSyncTransform_execute scn).2.
Proof.
  destruct (nh_sync_target scn) as [target|] eqn:Ht; cycle 1.
  { unfold ApplySyncTransform_execute. rewrite Ht.
    destruct (nh_sync_source scn); simpl; done. }
  destruct (nh_sync_source scn) as [source|] eqn:Hs; cycle 1.
  { unfold ApplySyncTransform_execute. rewrite Hs. simpl. done. }
  rewrite (ApplySyncTransform_execute_set scn source target Hs Ht). simpl.
  rewrite (RemoveSyncTransform_execute_set scn target Ht).
  rewrite (RemoveSyncTransform_execute_set (set_pose_bones target _ scn) target Ht).
  simpl. split_and!; [done..|]. intros a. simpl.
  destruct (decide (a = target)) as [->|Hne].
  - rewrite !fn_lookup_insert. apply remove_apply_constraints.
  - by rewrite !fn_lookup_insert_ne.
Qed.

(** X2.  On a target without sync constraints, Apply Transform Sync followed
    by Remove Transform Sync restores every pose bone of the scene. *)
Theorem apply_then_remove_restores (scn : Scene) (target : obj_ref) :
  nh_sync_target scn = Some target →
  no_sync_constraints (pose_bones scn target) →
  same_scene (RemoveSyncTransform_execute (ApplySyncTransform_execute scn).2).2 scn.
Proof.
  intros Ht Hno.
  assert (same_scene (RemoveSyncTransform_execute scn).2 scn) as Hrem.
  { rewrite (RemoveSyncTransform_execute_set scn target Ht). simpl.
    split_and!; [done..|]. intros a. simpl.
    destruct (decide (a = target)) as [->|Hne].
    - rewrite fn_lookup_insert. by apply remove_constraints_id.
    - by rewrite fn_lookup_insert_ne. }
  destruct (nh_sync_source scn) as [source|] eqn:Hs; cycle 1.
  { unfold ApplySyncTransform_execute. rewrite Hs. simpl. done. }
  rewrite (ApplySyncTransform_execute_set scn source target Hs Ht). simpl.
  rewrite (RemoveSyncTransform_execute_set (set_pose_bones target _ scn) target Ht).
  simpl. split_and!; [done..|]. intros a. simpl.
  destruct (decide (a = target)) as [->|Hne].
  - rewrite !fn_lookup_insert, remove_apply_constraints.
    by apply remove_constraints_id.
  - by rewrite !fn_lookup_insert_ne.
Qed.

(** X3.  Apply Transform Sync is idempotent: a second run returns the same
    status and report and leaves every pose bone as the first run left
    it. *)
Theorem apply_twice_is_apply_once (scn : Scene) :
  (ApplySyncTransform_execute (ApplySyncTransform_execute scn).2).1 =
    (ApplySyncTransform_execute scn).1 ∧
  same_scene (ApplySyncTransform_execute (ApplySyncTransform_execute scn).2).2
             (ApplySyncTransform_execute scn).2.
Proof.
  destruct (nh_sync_source scn) as [source|] eqn:Hs; cycle 1.
  { unfold ApplySyncTransform_execute. rewrite Hs. simpl. by rewrite Hs. }
  destruct (nh_sync_target scn) as [target|] eqn:Ht; cycle 1.
  { unfold ApplySyncTransform_execute. rewrite Hs, Ht. simpl. by rewrite Hs, Ht. }
  pose proof (common_after_apply scn source target Hs Ht) as Hcommon.
  pose proof (ApplySyncTransform_execute_set scn source target Hs Ht) as Hfirst.
  assert (nh_sync_source (ApplySyncTransform_execute scn).2 = Some source) as Hs'
    by (by rewrite Hfirst).
  assert (nh_sync_target (ApplySyncTransform_execute scn).2 = Some target) as Ht'
    by (by rewrite Hfirst).
  rewrite (ApplySyncTransform_execute_set _ source target Hs' Ht'), Hcommon.
  assert (pose_bones (ApplySyncTransform_execute scn).2 target =
          apply_constraints source target (pose_bones scn target)
            (get_common_bone_names (pose_bones scn source) (pose_bones scn target)))
    as Hbones by (rewrite Hfirst; simpl; by rewrite fn_lookup_insert).
  rewrite Hbones, apply_constraints_idemp by apply common_bone_names_NoDup.
  split; [by rewrite Hfirst|].
  split_and!; [done..|]. intros a. simpl.
  destruct (decide (a = target)) as [->|Hne].
  - by rewrite fn_lookup_insert.
  - by rewrite fn_lookup_insert_ne.
Qed.

(** X4.  With a target set, Remove Transform Sync finishes and leaves no
    pose bone of the target with a sync constraint; a second run changes
    nothing. *)
Theorem remove_leaves_no_sync_constraint (scn : Scene) (target : obj_ref) :
  nh_sync_target scn = Some target →
  (RemoveSyncTransform_execute scn).1.1 = FINISHED ∧
  no_sync_constraints (pose_bones (RemoveSyncTransform_execute scn).2 target) ∧
  same_scene (RemoveSyncTransform_execute (RemoveSyncTransform_execute scn).2).2
             (RemoveSyncTransform_execute scn).2.
Proof.
  intros Ht. rewrite (RemoveSyncTransform_execute_set scn target Ht). simpl.
  split_and!; [done| |].
  - rewrite fn_lookup_insert. apply remove_constraints_no_sync.
  - rewrite (RemoveSyncTransform_execute_set (set_pose_bones target _ scn) target Ht).
    simpl. split_and!; [done..|]. intros a. simpl.
    destruct (decide (a = target)) as [->|Hne].
    + rewrite !fn_lookup_insert. apply remove_constraints_idemp.
    + by rewrite !fn_lookup_insert_ne.
Qed.

(** X5.  With source and target set, the panel drawn after Apply Transform
    Sync lists the matching bones with a check mark on every one of them,
    and the panel drawn after Remove Transform Sync lists the same bones
    with no check mark. *)
Theorem panel_after_apply_and_remove (scn : Scene) (source target : obj_ref) :
  nh_sync_source scn = Some source →
  nh_sync_target scn = Some target →
  SyncTransformPanel_draw (ApplySyncTransform_execute scn).2 =
    panel_with_rows true
      (get_common_bone_names (pose_bones scn source) (pose_bones scn target)) ∧
  SyncTransformPanel_draw (RemoveSyncTransform_execute scn).2 =
    panel_with_rows false
      (get_common_bone_names (pose_bones scn source) (pose_bones scn target)).
Proof.
  intros Hs Ht. split.
  - pose proof (common_after_apply scn source target Hs Ht) as Hcommon.
    pose proof (ApplySyncTransform_execute_set scn source target Hs Ht) as Hfirst.
    unfold SyncTransformPanel_draw, panel_with_rows.
    replace (nh_sync_source (ApplySyncTransform_execute scn).2) with (Some source)
      by (by rewrite Hfirst).
    replace (nh_sync_target (ApplySyncTransform_execute scn).2) with (Some target)
      by (by rewrite Hfirst).
    cbv zeta. rewrite Hcommon.
    assert ((λ bone_name,
               bone_row (synced (pose_bones (ApplySyncTransform_execute scn).2 target)
                                bone_name) bone_name)
              <$> get_common_bone_names (pose_bones scn source) (pose_bones scn target) =
            bone_row true
              <$> get_common_bone_names (pose_bones scn source) (pose_bones scn target))
      as ->; [|done].
    apply Forall_fmap_ext, Forall_forall. intros n Hn. f_equal.
    rewrite Hfirst. simpl. rewrite fn_lookup_insert. unfold synced.
    rewrite apply_constraints_lookup by apply common_bone_names_NoDup.
    rewrite decide_True by done.
    apply elem_of_common_bone_names in Hn as [_ [cs ->]]. simpl.
    apply has_sync_constraint_sync_bone.
  - pose proof (RemoveSyncTransform_execute_set scn target Ht) as Hrem.
    unfold SyncTransformPanel_draw, panel_with_rows.
    replace (nh_sync_source (RemoveSyncTransform_execute scn).2) with (Some source)
      by (by rewrite Hrem).
    replace (nh_sync_target (RemoveSyncTransform_execute scn).2) with (Some target)
      by (by rewrite Hrem).
    cbv zeta.
    assert (get_common_bone_names
              (pose_bones (RemoveSyncTransform_execute scn).2 source)
              (pose_bones (RemoveSyncTransform_execute scn).2 target) =
            get_common_bone_names (pose_bones scn source) (pose_bones scn target))
      as ->.
    { rewrite Hrem. simpl. apply get_common_bone_names_dom.
      - destruct (decide (target = source)) as [->|Hne].
        + rewrite fn_lookup_insert. apply remove_constraints_dom.
        + by rewrite fn_lookup_insert_ne.
      - rewrite fn_lookup_insert. apply remove_constraints_dom. }
    assert ((λ bone_name,
               bone_row (synced (pose_bones (RemoveSyncTransform_execute scn).2 target)
                                bone_name) bone_name)
              <$> get_common_bone_names (pose_bones scn source) (pose_bones scn target) =
            bone_row false
              <$> get_common_bone_names (pose_bones scn source) (pose_bones scn target))
      as ->; [|done].
    apply Forall_fmap_ext, Forall_forall. intros n Hn. f_equal.
    rewrite Hrem. simpl. rewrite fn_lookup_insert. unfold synced.
    destruct (remove_constraints (pose_bones scn target) !! n) as [cs|] eqn:Hcs;
      [|done].
    exact (remove_constraints_no_sync (pose_bones scn target) n cs Hcs).
Qed.

(** X6.  Apply Transform Sync touches only the target bones whose name is a
    bone of the source: every other pose bone of the target keeps its
    constraints as they are, stale sync constraints included, the target
    keeps its set of bones, and no other armature is changed. *)
Theorem apply_touches_common_bones_only (scn : Scene) (source target : obj_ref) :
  nh_sync_source scn = Some source →
  nh_sync_target scn = Some target →
  (∀ n, pose_bones scn source !! n = None →
        pose_bones (ApplySyncTransform_execute scn).2 target !! n =
        pose_bones scn target !! n) ∧
  dom (pose_bones (ApplySyncTransform_execute scn).2 target) =
    dom (pose_bones scn target) ∧
  (∀ a, a ≠ target →
        pose_bones (ApplySyncTransform_execute scn).2 a = pose_bones scn a).
Proof.
  intros Hs Ht. rewrite (ApplySyncTransform_execute_set scn source target Hs Ht).
  simpl. split_and!.
  - intros n Hn. rewrite fn_lookup_insert. apply apply_constraints_other.
    intros [Hsome _]%elem_of_common_bone_names. rewrite Hn in Hsome.
    by apply is_Some_None in Hsome.
  - rewrite fn_lookup_insert. apply apply_constraints_dom.
  - intros a Hne. by rewrite fn_lookup_insert_ne.
Qed.

Lemma filter_names_NoDup (constraints : list Constraint) :
  NoDup (name <$> constraints) →
  NoDup (name <$> List.filter not_sync constraints).
Proof.
  induction constraints as [|c cs IH]; csimpl; [done|].
  intros [Hc Hcs]%NoDup_cons. destruct (not_sync c); csimpl; [|by apply IH].
  apply NoDup_cons. split; [|by apply IH].
  intros (c' & Hname & Hin)%list_elem_of_fmap. apply Hc.
  apply list_elem_of_fmap. exists c'. split; [done|].
  apply list_elem_of_In. apply list_elem_of_In, filter_In in Hin. tauto.
Qed.

(** X7.  The names of the constraints of a synced bone stay distinct: the
    three names [sync_bone] gives out differ from each other and from the
    name of every constraint it keeps. *)
Theorem sync_bone_keeps_names_distinct (source target : obj_ref) (n : string)
    (constraints : list Constraint) :
  NoDup (name <$> constraints) →
  NoDup (name <$> sync_bone source target n constraints).
Proof.
  intros Hnd. rewrite sync_bone_eq, fmap_app. apply NoDup_app. split_and!.
  - by apply filter_names_NoDup.
  - intros x (c & -> & Hin)%list_elem_of_fmap (c' & Hname & Hc')%list_elem_of_fmap.
    apply list_elem_of_In, filter_In in Hin as [_ Hc].
    unfold not_sync in Hc. apply negb_true_iff in Hc.
    pose proof (new_sync_constraints_sync source target n) as Hsync.
    rewrite Forall_forall in Hsync. specialize (Hsync c' Hc').
    unfold is_sync in *. congruence.
  - destruct (stored_name_prefixed ROT n) as [r1 H1].
    destruct (stored_name_prefixed LOC n) as [r2 H2].
    destruct (stored_name_prefixed SCL n) as [r3 H3].
    unfold new_sync_constraints, sync_constraint.
    rewrite !fmap_cons, fmap_nil. cbn [name]. rewrite H1, H2, H3.
    repeat (apply NoDup_cons; split);
      [| |apply not_elem_of_nil|apply NoDup_nil_2];
      rewrite ?elem_of_cons, ?elem_of_nil; simpl; intuition discriminate.
Qed.

(** X8.  [get_common_bone_names] does not depend on the order of its two
    arguments, and the length of its result is the number of names the two
    armatures share. *)
Theorem common_bone_names_symmetric
    (armature1 armature2 : gmap string (list Constraint)) :
  get_common_bone_names armature1 armature2 =
    get_common_bone_names armature2 armature1 ∧
  length (get_common_bone_names armature1 armature2) =
    size (dom armature1 ∩ dom armature2).
Proof.
  unfold get_common_bone_names, sorted. split.
  - by rewrite (comm_L (∩) (dom armature1)).
  - by rewrite merge_sort_Permutation.
Qed.

End Props.

Lemma clean_pose_no_sync : no_sync_constraints (clean_pose 2).
Proof.
  intros n cs. change (clean_pose 2) with
    ({[ "hip" := [ik]; "tail" := [] ]} : gmap string (list Constraint)).
  rewrite lookup_insert, lookup_singleton.
  repeat case_decide; intros [= <-]; reflexivity.
Qed.

Lemma apply_then_remove_restores_witness :
  same_scene
    (RemoveSyncTransform_execute
       (ApplySyncTransform_execute (H:=example_host) clean_scene).2).2
    clean_scene.
Proof.
  exact (apply_then_remove_restores (H:=example_host) clean_scene 2 eq_refl
           clean_pose_no_sync).
Defined.

Lemma remove_leaves_no_sync_constraint_witness :
  (RemoveSyncTransform_execute example_scene).1.1 = FINISHED ∧
  no_sync_constraints (pose_bones (RemoveSyncTransform_execute example_scene).2 2) ∧
  same_scene (RemoveSyncTransform_execute (RemoveSyncTransform_execute example_scene).2).2
             (RemoveSyncTransform_execute example_scene).2.
Proof.
  exact (remove_leaves_no_sync_constraint example_scene 2 eq_refl).
Defined.

Lemma panel_after_apply_and_remove_witness :
  SyncTransformPanel_draw (ApplySyncTransform_execute (H:=example_host) example_scene).2 =
    panel_with_rows true ["hip"] ∧
  SyncTransformPanel_draw (RemoveSyncTransform_execute example_scene).2 =
    panel_with_rows false ["hip"].
Proof.
  exact (panel_after_apply_and_remove (H:=example_host) example_scene 1 2
           eq_refl eq_refl).
Defined.

Lemma apply_touches_common_bones_only_witness :
  pose_bones (ApplySyncTransform_execute (H:=example_host) example_scene).2 2 !! "tail" =
    Some [stale_sync] ∧
  pose_bones (ApplySyncTransform_execute (H:=example_host) example_scene).2 1 =
    pose_bones example_scene 1.
Proof.
  destruct (apply_touches_common_bones_only (H:=example_host) example_scene 1 2
              eq_refl eq_refl) as (Hother & _ & Harm).
  split.
  - rewrite (Hother "tail"); reflexivity.
  - apply Harm. discriminate.
Defined.

Lemma sync_bone_keeps_names_distinct_witness :
  NoDup (name <$> sync_bone (H:=example_host) 1 2 "hip" [stale_sync; ik]).
Proof.
  apply (sync_bone_keeps_names_distinct (H:=example_host) 1 2 "hip" [stale_sync; ik]).
  by apply (bool_decide_unpack _).
Defined.

End SyncTransformProps.

(* ================================================================== *)
(** * Further properties of NH_BoneCleaner *)
(* ================================================================== *)

Module BoneCleanerProps.
Import BoneCleaner BoneCleanerSpec.

(** ** Weights of a vertex group *)

Lemma vertex_groups_find_None vgs n :
  n ∉ vgs → vertex_groups_find vgs n = None.
Proof.
  induction vgs as [|a vgs IH]; simpl; [done|].
  intros Hn. destruct (String.eqb_spec a n) as [->|Hne].
  - destruct Hn. by left.
  - rewrite IH; [done|]. intros ?. apply Hn. by right.
Qed.

(** X9.  [get_vertex_group_weights] returns the empty list for a name that
    is not a vertex group of the object; for the name of a vertex group of
    an object with distinct group names it returns the weights of the
    entries that refer to the index of that group, vertex by vertex. *)
Theorem get_vertex_group_weights_cases (mesh : Object) :
  (∀ n, n ∉ vertex_groups mesh → get_vertex_group_weights mesh n = []) ∧
  (∀ i n, NoDup (vertex_groups mesh) → vertex_groups mesh !! i = Some n →
          get_vertex_group_weights mesh n = group_entries mesh i).
Proof.
  split.
  - intros n Hn. unfold get_vertex_group_weights.
    by rewrite vertex_groups_find_None.
  - intros i n Hnd Hi. unfold get_vertex_group_weights, group_entries.
    by rewrite (vertex_groups_find_NoDup _ _ _ Hnd Hi).
Qed.

Lemma get_vertex_group_weights_cases_witness :
  get_vertex_group_weights body "toe" = [] ∧
  get_vertex_group_weights body "tail" = group_entries body 1.
Proof.
  destruct (get_vertex_group_weights_cases body) as [Hmissing Hfound].
  split.
  - apply Hmissing. by apply (bool_decide_unpack _).
  - apply Hfound; [by apply (bool_decide_unpack _)|reflexivity].
Defined.

(** ** The items of the modifier property and the modifier map *)

Lemma counter_get_pos k cnt :
  0 < counter_get k cnt → (k, counter_get k cnt) ∈ cnt.
Proof.
  induction cnt as [|[k0 c] cnt IH]; simpl; [lia|].
  destruct (String.eqb_spec k0 k) as [->|Hne]; [by left|].
  intros Hpos. right. by apply IH.
Qed.

Lemma occurrences_present k mods :
  (∃ m, m ∈ mods ∧ armature_modifier_named k m) → 0 < occurrences k mods.
Proof.
  intros (m & Hin & Hm). unfold occurrences.
  assert (m ∈ List.filter (counts_for k) mods) as Hf.
  { apply list_elem_of_In, filter_In. split; [by apply list_elem_of_In|].
    by apply counts_for_spec. }
  destruct (List.filter (counts_for k) mods); [by apply elem_of_nil in Hf|].
  simpl. lia.
Qed.

Lemma all_present_full_count k meshes :
  Forall modifier_names_well_formed meshes →
  present_on_all k meshes →
  sum_list (occurrences k ∘ modifiers <$> meshes) = length meshes.
Proof.
  unfold present_on_all. induction meshes as [|mesh meshes IH]; csimpl; [done|].
  intros [[Hnd _] Hwf]%Forall_cons Hall.
  pose proof (occurrences_le_1 k _ Hnd).
  pose proof (occurrences_present k (modifiers mesh) (Hall mesh ltac:(left))).
  rewrite IH; [lia|done|]. intros m Hm. apply Hall. by right.
Qed.

Lemma positive_summand {A} (f : A → nat) (l : list A) :
  0 < sum_list (f <$> l) → ∃ x, x ∈ l ∧ 0 < f x.
Proof.
  induction l as [|a l IH]; csimpl; [lia|]. intros Hsum.
  destruct (f a) eqn:Hfa.
  - destruct IH as (x & Hx & Hpos); [lia|]. exists x. split; [by right|done].
  - exists a. split; [left|lia].
Qed.

(** The identifiers of the items are the counted names whose count is the
    number of meshes. *)
Lemma item_identifiers meshes :
  (find_common_armature_modifier meshes).1.*1.*1 =
  (List.filter (λ nc : string * nat, bool_decide (nc.2 = length meshes))
     (foldl scan_mesh ([], ∅) meshes).1).*1.
Proof.
  unfold find_common_armature_modifier.
  destruct (foldl scan_mesh ([], ∅) meshes) as [cnt mm]; simpl.
  rewrite <- !list_fmap_compose.
  induction cnt as [|[k c] cnt IH]; [done|].
  rewrite filter_cons. simpl. case_bool_decide; case_decide; try done.
  all: csimpl; by rewrite IH.
Qed.

Lemma elem_of_item_identifiers k meshes :
  k ∈ (find_common_armature_modifier meshes).1.*1.*1 ↔
  meshes ≠ [] ∧ sum_list (occurrences k ∘ modifiers <$> meshes) = length meshes.
Proof.
  split.
  - intros Hk. split; [|by apply common_modifier_count].
    intros ->. by apply elem_of_nil in Hk.
  - intros [Hne Hsum]. rewrite item_identifiers.
    pose proof (scan_meshes_count k meshes ([], ∅)) as Hcount. simpl in Hcount.
    rewrite Hsum in Hcount.
    apply list_elem_of_fmap. exists (k, length meshes). split; [done|].
    apply list_elem_of_In, filter_In. split; [|by apply bool_decide_eq_true].
    apply list_elem_of_In. rewrite <- Hcount. apply counter_get_pos.
    rewrite Hcount. destruct meshes; [done|simpl; lia].
Qed.

(** X10.  For selected meshes whose modifier names are distinct and not
    empty, the items of the modifier property are exactly the armature
    modifiers (with an object) that every one of the meshes has, provided
    there is a mesh at all; no identifier is offered twice, and every item
    is the triple of the name, the name and the empty description. *)
Theorem items_are_the_common_modifiers (meshes : list Object) :
  Forall modifier_names_well_formed meshes →
  (∀ k, k ∈ (find_common_armature_modifier meshes).1.*1.*1 ↔
        meshes ≠ [] ∧ present_on_all k meshes) ∧
  NoDup (find_common_armature_modifier meshes).1.*1.*1 ∧
  Forall (λ item : string * string * string, item = (item.1.1, item.1.1, ""))
         (find_common_armature_modifier meshes).1.
Proof.
  intros Hwf. split_and!.
  - intros k. rewrite elem_of_item_identifiers. split.
    + intros [Hne Hsum]. split; [done|]. by apply full_count_all_present.
    + intros [Hne Hall]. split; [done|]. by apply all_present_full_count.
  - rewrite item_identifiers.
    pose proof (scan_meshes_NoDup meshes ([], ∅) (NoDup_nil_2)) as Hnd.
    eapply sublist_NoDup; [exact Hnd|].
    apply fmap_sublist. clear.
    induction ((foldl scan_mesh ([], ∅) meshes).1) as [|a l IH]; simpl; [done|].
    destruct (bool_decide _); [by constructor|by constructor].
  - unfold find_common_armature_modifier.
    destruct (foldl scan_mesh ([], ∅) meshes) as [cnt mm]; simpl.
    apply Forall_fmap, Forall_forall. by intros k _.
Qed.

Lemma items_are_the_common_modifiers_witness :
  "Armature" ∈ (find_common_armature_modifier [body]).1.*1.*1 ∧
  "Armature" ∉ (find_common_armature_modifier [body; hair]).1.*1.*1.
Proof.
  split.
  - apply (items_are_the_common_modifiers [body]).
    + repeat constructor; by apply (bool_decide_unpack _).
    + split; [done|]. intros mesh ->%list_elem_of_singleton.
      eexists. split; [left|]. split_and!; [reflexivity|by eexists|reflexivity].
  - intros Hin.
    apply (items_are_the_common_modifiers [body; hair]) in Hin as [_ Hall].
    + destruct (Hall hair) as (m & Hm & _); [right; left|].
      by apply elem_of_nil in Hm.
    + repeat constructor; by apply (bool_decide_unpack _).
Defined.

Lemma foldl_scan_mesh meshes st :
  foldl scan_mesh st meshes = foldl scan_modifier st (all_modifiers meshes).
Proof.
  unfold all_modifiers. revert st.
  induction meshes as [|mesh meshes IH]; intros st; csimpl; [done|].
  by rewrite foldl_app, IH.
Qed.

Lemma scan_modifier_lookup_eq st m k :
  (scan_modifier st m).2 !! k =
  if counts_for k m then mod_object m else st.2 !! k.
Proof.
  unfold scan_modifier, counts_for.
  destruct (String.eqb (mod_type m) "ARMATURE"); simpl; [|done].
  destruct (mod_object m) as [o|]; simpl; [|done].
  destruct (String.eqb_spec (mod_name m) k) as [->|Hne]; simpl.
  - by rewrite lookup_insert_eq.
  - by rewrite lookup_insert_ne.
Qed.

Lemma scan_modifiers_last mods st k :
  (foldl scan_modifier st mods).2 !! k =
  match last (List.filter (counts_for k) mods) with
  | Some m => mod_object m
  | None => st.2 !! k
  end.
Proof.
  induction mods as [|m mods IH] using rev_ind; [done|].
  rewrite foldl_app, List.filter_app, last_app. simpl.
  rewrite scan_modifier_lookup_eq. by destruct (counts_for k m).
Qed.

(** X11.  The armature [find_common_armature_modifier] records for a
    modifier name is the object of the last armature modifier of that name
    (with an object) met while going through the meshes in order and, on
    each mesh, through its modifiers in order; a name no such modifier has
    is not in the map. *)
Theorem mod_map_holds_last_object (meshes : list Object) (k : string) :
  (find_common_armature_modifier meshes).2 !! k =
  last (List.filter (counts_for k) (all_modifiers meshes)) ≫= mod_object.
Proof.
  unfold find_common_armature_modifier.
  pose proof (scan_modifiers_last (all_modifiers meshes) ([], ∅) k) as Hlast.
  rewrite <- foldl_scan_mesh in Hlast.
  destruct (foldl scan_mesh ([], ∅) meshes) as [cnt mm]; simpl in *.
  rewrite Hlast. by destruct (last _).
Qed.

Section Operators.
Context `{HostOps}.

(** X12.  A modifier name that is among the items of the property always
    resolves: some mesh is selected, the modifier map has an armature for
    the name, and Select Unused Bones, whenever it returns, returns
    FINISHED. *)
Theorem item_choice_is_never_cancelled (fuel : nat) (ctx : Context) :
  modifier_name (bone_cleaner_props ctx) ∈ (modifier_name_items ctx).*1.*1 →
  selected_meshes ctx ≠ [] ∧
  is_Some (chosen_armature ctx) ∧
  ∀ st r ctx',
    SelectUnusedBones_execute fuel ctx = Some (Returned (st, r, ctx')) →
    st = FINISHED.
Proof.
  unfold modifier_name_items. intros [Hne Hsum]%elem_of_item_identifiers.
  assert (is_Some (chosen_armature ctx)) as [arm Harm].
  { apply OperatorsSpec.mod_map_lookup.
    destruct (positive_summand
                (occurrences (modifier_name (bone_cleaner_props ctx)) ∘ modifiers)
                (selected_meshes ctx)) as (mesh & Hmesh & Hpos).
    { rewrite Hsum. destruct (selected_meshes ctx); [done|simpl; lia]. }
    apply occurrences_pos in Hpos as (m & Hm & Hnamed).
    by exists mesh, m. }
  split_and!; [done|by exists arm|].
  intros st r ctx'.
  pose proof (SelectUnusedBones_execute_cases fuel ctx) as Hc.
  destruct (selected_meshes ctx); [done|]. rewrite Harm in Hc. rewrite Hc.
  destruct (final_used_bones fuel ctx arm); simpl; [|done].
  intros [= He]. by apply switch_and_select_returned in He as [? _].
Qed.

End Operators.

Lemma item_choice_is_never_cancelled_witness :
  selected_meshes (example_context [body]) ≠ [] ∧
  is_Some (chosen_armature (example_context [body])) ∧
  ∀ st r ctx',
    SelectUnusedBones_execute (H:=example_host) 5 (example_context [body]) =
      Some (Returned (st, r, ctx')) → st = FINISHED.
Proof.
  apply (item_choice_is_never_cancelled (H:=example_host) 5 (example_context [body])).
  by apply (bool_decide_unpack _).
Defined.

(** ** Hierarchy expansion *)

Lemma expand_hierarchy_closed fuel bs used_bones E :
  expand_hierarchy fuel bs used_bones = Some E →
  (∀ u, u ∈ used_bones → is_Some (bs !! u) → u ∈ E) ∧
  (∀ n p, n ∈ E → parent_rel bs n p → p ∈ E).
Proof.
  intros HE. unfold expand_hierarchy in HE. split.
  - intros u Hu Hb. apply (expand_loop_elem _ _ _ _ _ u HE). right.
    exists u. split_and!; [by apply elem_of_elements|done|apply rtc_refl].
  - intros n p Hn Hp.
    apply (expand_loop_elem _ _ _ _ _ n HE) in Hn as [Hn|(u & Hu & Hb & Hrtc)];
      [by apply not_elem_of_empty in Hn|].
    apply (expand_loop_elem _ _ _ _ _ p HE). right.
    exists u. split_and!; [done..|]. by eapply rtc_r.
Qed.

Section Hierarchy.
Context `{HostOps}.

(** X13.  With the preserve-hierarchy option on, a finished Select Unused
    Bones never selects the parent of a bone it leaves unselected, and it
    leaves unselected every bone of the armature that the detection found
    used: deleting the selection cannot cut a kept bone off its ancestors. *)
Theorem preserved_hierarchy_keeps_parents (fuel : nat) (ctx ctx' : Context)
    (r : option Report) :
  SelectUnusedBones_execute fuel ctx = Some (Returned (FINISHED, r, ctx')) →
  preserve_hierarchy (bone_cleaner_props ctx) = true →
  ∃ arm,
    chosen_armature ctx = Some arm ∧
    (∀ b p,
       b ∈ edit_bones (armature_data ctx' arm) →
       p ∈ edit_bones (armature_data ctx' arm) →
       parent_rel (bones (armature_data ctx arm)) (eb_name b) (eb_name p) →
       select b = false → select p = false) ∧
    (∀ b,
       b ∈ edit_bones (armature_data ctx' arm) →
       is_Some (bones (armature_data ctx arm) !! eb_name b) →
       eb_name b ∈ detect_used_bones (modifier_name (bone_cleaner_props ctx)) arm
                                     (selected_meshes ctx) →
       select b = false).
Proof.
  intros (arm & E & entered & Harm & HE & _ & ->)%SelectUnusedBones_execute_finished
    Hpres.
  unfold final_used_bones in HE. rewrite Hpres in HE.
  apply expand_hierarchy_closed in HE as [Hused Hclosed].
  exists arm. split; [done|]. rewrite select_unused_edit_bones.
  assert (∀ b, b ∈ set_select E <$> edit_bones (armature_data entered arm) →
               (select b = false ↔ eb_name b ∈ E)) as Hsel.
  { intros b (b0 & -> & _)%list_elem_of_fmap. simpl.
    rewrite bool_decide_eq_false. split; [apply dec_stable|by intros ? ?]. }
  split.
  - intros b p Hb Hp Hparent Hkept. apply (Hsel p Hp).
    apply (Hclosed (eb_name b)); [by apply (Hsel b Hb)|done].
  - intros b Hb Hbone Hdet. apply (Hsel b Hb). by apply Hused.
Qed.

End Hierarchy.

Lemma preserved_hierarchy_keeps_parents_witness :
  ∃ arm ctx',
    SelectUnusedBones_execute (H:=example_host) 5 (example_context [body]) =
      Some (Returned (FINISHED, None, ctx')) ∧
    chosen_armature (example_context [body]) = Some arm ∧
    (∀ b p,
       b ∈ edit_bones (armature_data ctx' arm) →
       p ∈ edit_bones (armature_data ctx' arm) →
       parent_rel rig_bones (eb_name b) (eb_name p) →
       select b = false → select p = false).
Proof.
  assert (SelectUnusedBones_execute (H:=example_host) 5 (example_context [body]) =
          Some (Returned
                  (FINISHED, None,
                   select_unused 1 {["head"; "spine"; "root"]}
                     (example_edit_context [body]))))
    as Hex by (by vm_compute).
  destruct (preserved_hierarchy_keeps_parents (H:=example_host) 5
              (example_context [body]) _ None Hex eq_refl)
    as (arm & Harm & Hparents & _).
  eexists arm, _. split_and!; [exact Hex|exact Harm|exact Hparents].
Defined.

(** ** Cycles *)

Lemma parent_rel_functional bs b p q :
  parent_rel bs b p → parent_rel bs b q → p = q.
Proof. unfold parent_rel. congruence. Qed.

Lemma on_cycle_step bs c d :
  ancestor bs c c → parent_rel bs c d → ancestor bs d d.
Proof.
  unfold ancestor. intros Hcyc Hcd.
  assert (rtc (parent_rel bs) d c) as Hdc.
  { inversion Hcyc as [? ? Hstep|? y ? Hstep Hrest]; subst.
    - rewrite (parent_rel_functional _ _ _ _ Hcd Hstep). apply rtc_refl.
    - rewrite (parent_rel_functional _ _ _ _ Hcd Hstep). by apply tc_rtc. }
  eapply tc_rtc_l; [exact Hdc|by apply tc_once].
Qed.

Lemma on_cycle_has_parent bs c :
  ancestor bs c c → ∃ d, parent_rel bs c d.
Proof.
  unfold ancestor. inversion 1; subst; eauto.
Qed.

Lemma walk_on_cycle fuel bs c acc :
  ancestor bs c c → walk fuel bs (Some c) acc = None.
Proof.
  revert c acc. induction fuel as [|fuel IH]; intros c acc Hcyc; simpl; [done|].
  destruct (on_cycle_has_parent bs c Hcyc) as [d Hd].
  unfold parent_rel in Hd. rewrite Hd. apply IH.
  by apply (on_cycle_step bs c d).
Qed.

Lemma walk_into_cycle fuel bs b acc :
  reaches_cycle bs b → walk fuel bs (Some b) acc = None.
Proof.
  intros (c & Hrtc & Hcyc). revert fuel acc.
  induction Hrtc as [c|b b' c Hstep _ IH]; intros fuel acc.
  - by apply walk_on_cycle.
  - destruct fuel as [|fuel]; simpl; [done|].
    unfold parent_rel in Hstep. rewrite Hstep. by apply IH.
Qed.

(** X14.  The walk along the parent links returns for every starting bone,
    given enough iterations, exactly when no bone of the armature is its own
    ancestor; started on a bone from which a cycle can be reached it never
    returns. *)
Theorem walk_returns_iff_acyclic (bs : gmap string (option string)) :
  (acyclic bs ↔ ∀ b acc, ∃ fuel, is_Some (walk fuel bs (Some b) acc)) ∧
  (∀ b fuel acc, reaches_cycle bs b → walk fuel bs (Some b) acc = None).
Proof.
  split; [split|].
  - intros Hacyc b acc. exists (S (size bs)). apply walk_terminates; [done|lia].
  - intros Hret b Hcyc. destruct (Hret b ∅) as [fuel [E HE]].
    by rewrite walk_on_cycle in HE.
  - intros b fuel acc Hb. by apply walk_into_cycle.
Qed.

Lemma expand_loop_into_cycle fuel bs names acc u :
  u ∈ names → is_Some (bs !! u) → reaches_cycle bs u →
  expand_loop fuel bs names acc = None.
Proof.
  intros Hu Hb Hcyc. revert acc.
  induction names as [|a names IH]; intros acc; [by apply elem_of_nil in Hu|].
  simpl. apply elem_of_cons in Hu as [<-|Hu].
  - assert (bones_get bs u = Some u) as -> by (apply bones_get_Some; eauto).
    by rewrite walk_into_cycle.
  - destruct (walk fuel bs (bones_get bs a) acc); [by apply IH|done].
Qed.

Section Cycles.
Context `{HostOps}.

(** X15.  With the preserve-hierarchy option on, Select Unused Bones does
    not return if a used bone of the chosen armature reaches a cycle of
    parent links: no number of iterations is enough. *)
Theorem select_diverges_on_cycle (fuel : nat) (ctx : Context) (arm : obj_ref)
    (u : string) :
  chosen_armature ctx = Some arm →
  preserve_hierarchy (bone_cleaner_props ctx) = true →
  u ∈ detect_used_bones (modifier_name (bone_cleaner_props ctx)) arm
                        (selected_meshes ctx) →
  is_Some (bones (armature_data ctx arm) !! u) →
  reaches_cycle (bones (armature_data ctx arm)) u →
  SelectUnusedBones_execute fuel ctx = None.
Proof.
  intros Harm Hpres Hu Hb Hcyc.
  pose proof (SelectUnusedBones_execute_cases fuel ctx) as Hc.
  destruct (selected_meshes ctx) as [|m ms] eqn:Hm.
  { unfold detect_used_bones in Hu. simpl in Hu.
    by apply not_elem_of_empty in Hu. }
  rewrite Harm in Hc. rewrite Hc. unfold final_used_bones.
  rewrite Hpres, Hm. unfold expand_hierarchy.
  rewrite (expand_loop_into_cycle _ _ _ _ u); [done| |done..].
  by apply elem_of_elements.
Qed.

End Cycles.

Lemma select_diverges_on_cycle_witness :
  SelectUnusedBones_execute (H:=example_host) 1000 looped_context = None.
Proof.
  apply (select_diverges_on_cycle (H:=example_host) 1000 looped_context 1 "a").
  - by vm_compute.
  - reflexivity.
  - by apply (bool_decide_unpack _).
  - by eexists.
  - exists "a". split; [apply rtc_refl|].
    apply (tc_l _ "a" "b" "a"); [reflexivity|]. apply tc_once. reflexivity.
Defined.

(** ** Unused vertex groups *)

Lemma elem_of_to_remove mesh n :
  n ∈ to_remove mesh ↔
  ∃ i, vertex_groups mesh !! i = Some n ∧ i ∉ used_group_indices mesh.
Proof.
  unfold to_remove. rewrite list_elem_of_fmap. split.
  - intros ([i n'] & -> & [Hi Hin]%list_elem_of_filter). simpl in *.
    apply list_elem_of_lookup in Hin as [j Hj].
    rewrite list_lookup_imap in Hj.
    destruct (vertex_groups mesh !! j) as [m|] eqn:Hm; simplify_eq/=.
    eauto.
  - intros (i & Hi & Hused). exists (i, n). split; [done|].
    apply list_elem_of_filter. split; [done|].
    apply list_elem_of_lookup. exists i. by rewrite list_lookup_imap, Hi.
Qed.

(** X16.  Delete Unused Vertex Groups marks for removal exactly the names of
    the vertex groups at whose index no vertex has an entry with a positive
    weight; a group with only zero or negative entries, or with none, is
    removed. *)
Theorem to_remove_are_the_unweighted (mesh : Object) (n : string) :
  n ∈ to_remove mesh ↔
  ∃ i, vertex_groups mesh !! i = Some n ∧ ¬ has_positive_entry mesh i.
Proof.
  rewrite elem_of_to_remove. by setoid_rewrite elem_of_used_group_indices.
Qed.

Lemma filter_not_elem_of_nil (l : list string) :
  filter (λ m, m ∉ @nil string) l = l.
Proof.
  induction l as [|a l IH]; [done|].
  rewrite filter_cons, decide_True by apply not_elem_of_nil. by rewrite IH.
Qed.

Lemma foldl_vertex_groups_remove `{HostOps} (names : list string) (mesh : Object) :
  removes_named_group _ →
  NoDup (vertex_groups mesh) →
  vertex_groups (foldl vertex_groups_remove mesh names) =
  filter (λ m, m ∉ names) (vertex_groups mesh).
Proof.
  intros Hhost. revert mesh.
  induction names as [|a names IH]; intros mesh Hnd; simpl.
  - by rewrite filter_not_elem_of_nil.
  - rewrite IH, (Hhost mesh a Hnd).
    + rewrite list_filter_filter. apply list_filter_iff. intros m.
      rewrite not_elem_of_cons. tauto.
    + rewrite (Hhost mesh a Hnd). by apply NoDup_filter.
Qed.

(** X17.  On a host whose removal of a vertex group takes that name, and no
    other, out of the object's list of groups, Delete Unused Vertex Groups
    leaves on every selected mesh with distinct group names exactly the
    groups in which some vertex has a positive weight, in their order, and
    leaves every selected object that is not a mesh as it is. *)
Theorem delete_leaves_the_weighted_groups `{HostOps} (ctx ctx' : Context)
    (r : option Report) :
  removes_named_group _ →
  DeleteUnusedVertexGroups_execute ctx = (FINISHED, r, ctx') →
  Forall2 (λ obj obj',
             if is_mesh obj
             then NoDup (vertex_groups obj) →
                  vertex_groups obj' =
                    filter (λ n, n ∉ to_remove obj) (vertex_groups obj) ∧
                  ∀ n, n ∈ vertex_groups obj' ↔
                       ∃ i, vertex_groups obj !! i = Some n ∧
                            has_positive_entry obj i
             else obj' = obj)
          (selected_objects ctx) (selected_objects ctx').
Proof.
  intros Hhost. unfold DeleteUnusedVertexGroups_execute.
  destruct (selected_meshes ctx); [done|]. intros [= <- <-]. simpl.
  apply Forall2_fmap_r, Forall_Forall2_diag, Forall_forall. intros obj _. simpl.
  destruct (is_mesh obj); [|done]. intros Hnd. unfold remove_unused_groups.
  rewrite (foldl_vertex_groups_remove _ _ Hhost Hnd). split; [done|].
  intros n. rewrite list_elem_of_filter, elem_of_to_remove. split.
  - intros [Hkeep [i Hi]%list_elem_of_lookup]. exists i. split; [done|].
    apply elem_of_used_group_indices.
    destruct (decide (i ∈ used_group_indices obj)) as [|Hnot]; [done|].
    destruct Hkeep. by exists i.
  - intros (i & Hi & Hpos). split; [|by eapply list_elem_of_lookup_2].
    intros (j & Hj & Hnot).
    rewrite (NoDup_lookup _ _ _ _ Hnd Hj Hi) in Hnot.
    by apply Hnot, elem_of_used_group_indices.
Qed.

Lemma filter_ne_id (l : list string) n :
  n ∉ l → filter (λ m, m ≠ n) l = l.
Proof.
  induction l as [|a l IH]; [done|]. intros Hn.
  rewrite filter_cons, decide_True by (intros ->; apply Hn; by left).
  rewrite IH; [done|]. intros ?. apply Hn. by right.
Qed.

Lemma delete_found_group vgs n k :
  NoDup vgs → vertex_groups_find vgs n = Some k →
  delete k vgs = filter (λ m, m ≠ n) vgs.
Proof.
  revert k. induction vgs as [|a vgs IH]; intros k Hnd; simpl; [done|].
  apply NoDup_cons in Hnd as [Ha Hnd].
  destruct (String.eqb_spec a n) as [->|Hne].
  - intros [= <-]. rewrite filter_cons, decide_False by (by intros ?).
    simpl. by rewrite filter_ne_id.
  - destruct (vertex_groups_find vgs n) as [j|] eqn:Hj; simpl; [|done].
    intros [= <-]. rewrite filter_cons, decide_True by done.
    simpl. f_equal. by apply IH.
Qed.

Lemma example_host_removes_named_group : removes_named_group example_host.
Proof.
  intros mesh n Hnd. simpl. unfold example_vertex_groups_remove.
  destruct (vertex_groups_find (vertex_groups mesh) n) as [k|] eqn:Hk; simpl.
  - by apply delete_found_group.
  - rewrite filter_ne_id; [done|]. intros Hin.
    apply vertex_groups_find_elem in Hin as [j Hj]. congruence.
Qed.

Lemma delete_leaves_the_weighted_groups_witness :
  Forall2 (λ obj obj',
             if is_mesh obj
             then NoDup (vertex_groups obj) →
                  vertex_groups obj' =
                    filter (λ n, n ∉ to_remove obj) (vertex_groups obj) ∧
                  ∀ n, n ∈ vertex_groups obj' ↔
                       ∃ i, vertex_groups obj !! i = Some n ∧
                            has_positive_entry obj i
             else obj' = obj)
          (selected_objects (example_context [body]))
          (selected_objects
             (DeleteUnusedVertexGroups_execute (H:=example_host)
                (example_context [body])).2).
Proof.
  apply (delete_leaves_the_weighted_groups (H:=example_host)
           (example_context [body]) _ (Some ("INFO", "Removed 1 vertex groups."))
           example_host_removes_named_group).
  by vm_compute.
Defined.

(** ** Meshes bound to another armature *)

Lemma modifiers_get_named mods m :
  NoDup (mod_name <$> mods) → m ∈ mods →
  modifiers_get mods (mod_name m) = Some m.
Proof.
  unfold modifiers_get. induction mods as [|a mods IH]; csimpl.
  - by intros _ ?%elem_of_nil.
  - intros [Ha Hnd]%NoDup_cons [->|Hin]%elem_of_cons.
    + by rewrite String.eqb_refl.
    + destruct (String.eqb_spec (mod_name a) (mod_name m)) as [Heq|_]; [|by apply IH].
      destruct Ha. rewrite Heq. apply list_elem_of_fmap. eauto.
Qed.

Lemma modifiers_get_missing mods k :
  (∀ m, m ∈ mods → mod_name m ≠ k) → modifiers_get mods k = None.
Proof.
  unfold modifiers_get. induction mods as [|a mods IH]; simpl; [done|].
  intros Hall. destruct (String.eqb_spec (mod_name a) k) as [Heq|_].
  - destruct (Hall a); [left|done].
  - apply IH. intros m Hm. apply Hall. by right.
Qed.

Lemma carries_bound_by k arm mesh :
  carries k arm mesh = true → bound_by k arm mesh.
Proof.
  unfold carries, modifiers_get.
  destruct (List.find _ (modifiers mesh)) as [m|] eqn:Hfind; [|done].
  apply find_some in Hfind as [Hin Hname%String.eqb_eq].
  intros [Hty%String.eqb_eq Hobj%bool_decide_eq_true]%andb_true_iff.
  exists m. split_and!; [by apply list_elem_of_In|done..].
Qed.

Lemma unbound_not_carried k arm mesh :
  NoDup (mod_name <$> modifiers mesh) → unbound k arm mesh →
  carries k arm mesh = false.
Proof.
  intros Hnd [Hmissing|[(m & Hin & <- & Hty)|(m & Hin & <- & Hobj)]];
    unfold carries.
  - by rewrite modifiers_get_missing.
  - rewrite (modifiers_get_named _ m Hnd Hin).
    by destruct (String.eqb_spec (mod_type m) "ARMATURE").
  - rewrite (modifiers_get_named _ m Hnd Hin).
    rewrite (bool_decide_eq_false_2 _ Hobj). apply andb_false_r.
Qed.

(** X18.  A selected mesh whose modifier of the chosen name is missing, is
    not an armature modifier or points at another object than the chosen
    armature contributes nothing to the used set: taking the mesh out of
    the selection leaves the detected set as it is.  Every detected name is
    a vertex group of a selected mesh that the modifier of the chosen name
    binds to the chosen armature. *)
Theorem detection_ignores_other_meshes (k : string) (arm : obj_ref) :
  (∀ before mesh after,
     NoDup (mod_name <$> modifiers mesh) →
     unbound k arm mesh →
     detect_used_bones k arm (before ++ mesh :: after) =
     detect_used_bones k arm (before ++ after)) ∧
  (∀ meshes n,
     n ∈ detect_used_bones k arm meshes →
     ∃ mesh, mesh ∈ meshes ∧ bound_by k arm mesh ∧ n ∈ vertex_groups mesh).
Proof.
  split.
  - intros before mesh after Hnd Hun. unfold detect_used_bones.
    rewrite !foldl_app. cbn [foldl]. unfold mark_mesh at 2.
    by rewrite (unbound_not_carried k arm mesh Hnd Hun).
  - intros meshes n Hn. unfold detect_used_bones in Hn.
    apply elem_of_mark_meshes in Hn as [?%not_elem_of_empty|(mesh & Hin & Hn)];
      [done|].
    exists mesh. split; [done|]. unfold mark_mesh in Hn.
    destruct (carries k arm mesh) eqn:Hc; [|by apply not_elem_of_empty in Hn].
    split; [by apply carries_bound_by|].
    by apply elem_of_mark_groups in Hn as [?%not_elem_of_empty|[? _]].
Qed.

Lemma detection_ignores_other_meshes_witness :
  detect_used_bones "Armature" 1 ([body] ++ cape :: [hair]) =
    detect_used_bones "Armature" 1 ([body] ++ [hair]) ∧
  detect_used_bones "Armature" 1 ([body; cape] ++ hair :: []) =
    detect_used_bones "Armature" 1 ([body; cape] ++ []).
Proof.
  destruct (detection_ignores_other_meshes "Armature" 1) as [Hskip _].
  split.
  - apply (Hskip [body] cape [hair]).
    + by apply (bool_decide_unpack _).
    + right; right. eexists. split; [left|]. split; [reflexivity|discriminate].
  - apply (Hskip [body; cape] hair []).
    + apply NoDup_nil_2.
    + left. by intros m ?%elem_of_nil.
Defined.

End BoneCleanerProps.
